(** * Consultation template renderer

    A shallow embedding of [ConsultationTemplateRenderer] (the template
    merging utility of the admin client) and the properties of its
    specification.

    JavaScript strings are sequences of UTF-16 code units: a string is a
    [list N] of code units, and the regular expressions of the source (none
    of which carries the [u] flag) work on code units.  The consultation data
    is a plain object: a finite map holds its own properties, which are
    strings as its index signature [{ [field: string]: string }] says, and a
    name it does not own is looked up in [Object.prototype], as
    [consultationData[name]] does.
    The two [RegExp] objects shared by the class keep their [lastIndex]
    between calls, and [new Date()] reads the wall clock: both live in an
    explicit [World] that the operations thread.  What [console.error]
    prints is not kept. *)

From Stdlib Require Import NArith String Ascii.
From stdpp Require Import base option list gmap.

Local Open Scope N_scope.

(** ** Strings *)

Abbreviation jsstring := (list N) (only parsing).

(** String literals of this file are UTF-8 text; [js] decodes them into
    UTF-16 code units (a code point above the basic plane becomes a
    surrogate pair). *)
Definition cont (a : ascii) : N := N_of_ascii a - 128.

Definition surrogates (cp : N) : jsstring :=
  [55296 + (cp - 65536) / 1024; 56320 + (cp - 65536) mod 1024].

Fixpoint js (s : string) : jsstring :=
  match s with
  | EmptyString => []
  | String a rest =>
    let b0 := N_of_ascii a in
    if b0 <? 128 then b0 :: js rest
    else if b0 <? 224 then
      match rest with
      | String b r => ((b0 - 192) * 64 + cont b) :: js r
      | _ => [b0]
      end
    else if b0 <? 240 then
      match rest with
      | String b (String c r) =>
        ((b0 - 224) * 4096 + cont b * 64 + cont c) :: js r
      | _ => [b0]
      end
    else
      match rest with
      | String b (String c (String d r)) =>
        surrogates ((b0 - 240) * 262144 + cont b * 4096 + cont c * 64 + cont d)
          ++ js r
      | _ => [b0]
      end
  end.

Definition LBRACE : N := 123.
Definition RBRACE : N := 125.
Definition SPACE : N := 32.
Arguments LBRACE : simpl never.
Arguments RBRACE : simpl never.
Arguments SPACE : simpl never.

(** [\s] of a regular expression and the characters [trim()] strips:
    WhiteSpace and LineTerminator of ECMAScript. *)
Definition isWhiteSpace (c : N) : bool :=
  (c =? 9) || (c =? 10) || (c =? 11) || (c =? 12) || (c =? 13) || (c =? 32)
  || (c =? 160) || (c =? 5760) || ((8192 <=? c) && (c <=? 8202))
  || (c =? 8232) || (c =? 8233) || (c =? 8239) || (c =? 8287)
  || (c =? 12288) || (c =? 65279).

(** [[.!?]] *)
Definition isTerminal (c : N) : bool :=
  (c =? 46) || (c =? 33) || (c =? 63).

(** [[,.!?]] *)
Definition isPunct (c : N) : bool :=
  (c =? 44) || isTerminal c.

(** [[a-z]] *)
Definition isLowerAZ (c : N) : bool := (97 <=? c) && (c <=? 122).

(** The accented capitals listed in the character class of
    [postProcessVietnameseText], in the order of the source. *)
Definition vietnameseCapitals : list N :=
  [193; 192; 7842; 195; 7840; 258; 7856; 7854; 7858; 7860; 7862; 194; 7846;
   7844; 7848; 7850; 7852; 201; 200; 7866; 7868; 7864; 202; 7872; 7870; 7874;
   7876; 7878; 205; 204; 7880; 296; 7882; 211; 210; 7886; 213; 7884; 212;
   7890; 7888; 7892; 7894; 7896; 416; 7900; 7898; 7902; 7904; 7906; 218; 217;
   7910; 360; 7908; 431; 7914; 7912; 7916; 7918; 7920; 221; 7922; 7926; 7928;
   7924; 272].

(** [[A-ZÁÀẢ...Đ]] *)
Definition isUpper (c : N) : bool :=
  ((65 <=? c) && (c <=? 90)) || existsb (N.eqb c) vietnameseCapitals.

Fixpoint trimStart (s : jsstring) : jsstring :=
  match s with
  | [] => []
  | c :: rest => if isWhiteSpace c then trimStart rest else s
  end.

Definition trimEnd (s : jsstring) : jsstring :=
  reverse (trimStart (reverse s)).

(** [String.prototype.trim] *)
Definition trim (s : jsstring) : jsstring := trimEnd (trimStart s).

(** ** Regular expressions

    The patterns of the source are built from four atoms: one character of
    a class, a greedy [+] or [*] over a class, and [$]; an atom may be a
    capture group.  A pattern is matched as a backtracking matcher does:
    the atoms in order, every atom offering its ways to match from the
    longest to the shortest, the first way that lets the rest of the
    pattern match being taken. *)
Inductive Atom :=
  | One (cls : N -> bool)
  | Plus (cls : N -> bool)
  | Star (cls : N -> bool)
  | End.

Inductive Node :=
  | Plain (a : Atom)
  | Group (a : Atom).

Definition atomOf (n : Node) : Atom :=
  match n with Plain a | Group a => a end.

(** [anchored] is a leading [^]; [global] is the flag [g]. *)
Record RegExp := {
  anchored : bool;
  nodes : list Node;
  global : bool
}.

(** The classes of one character [x] and of all characters but [x]. *)
Definition chr (x : N) : N -> bool := fun c => c =? x.
Definition anyBut (x : N) : N -> bool := fun c => negb (c =? x).

(** The ways [cls*] matches at the head of [s], longest first: what is
    matched, and what is left. *)
Fixpoint runs (cls : N -> bool) (s : jsstring) : list (jsstring * jsstring) :=
  match s with
  | [] => [([], [])]
  | c :: rest =>
    if cls c
    then map (fun '(x, r) => (c :: x, r)) (runs cls rest) ++ [([], s)]
    else [([], s)]
  end.

Definition alternatives (a : Atom) (s : jsstring) : list (jsstring * jsstring) :=
  match a with
  | One cls =>
    match s with
    | c :: rest => if cls c then [([c], rest)] else []
    | [] => []
    end
  | Plus cls =>
    match s with
    | c :: rest =>
      if cls c then map (fun '(x, r) => (c :: x, r)) (runs cls rest) else []
    | [] => []
    end
  | Star cls => runs cls s
  | End =>
    match s with
    | [] => [([], [])]
    | _ :: _ => []
    end
  end.

Fixpoint firstSome {A B} (k : A -> option B) (l : list A) : option B :=
  match l with
  | [] => None
  | a :: l' =>
    match k a with
    | Some b => Some b
    | None => firstSome k l'
    end
  end.

(** A match of the nodes at the head of [s]: the text matched, the groups
    captured, and the input left. *)
Fixpoint matchNodes (p : list Node) (s : jsstring)
    : option (jsstring * list jsstring * jsstring) :=
  match p with
  | [] => Some ([], [], s)
  | n :: p' =>
    firstSome
      (fun '(x, r) =>
         match matchNodes p' r with
         | Some (matched, groups, rest) =>
           Some (x ++ matched,
                 match n with
                 | Group _ => x :: groups
                 | Plain _ => groups
                 end,
                 rest)
         | None => None
         end)
      (alternatives (atomOf n) s)
  end.

(** A match as the array JavaScript makes of it: the text matched at index
    0, the groups from index 1 on. *)
Definition matchAt (re : RegExp) (s : jsstring) : option (list jsstring * jsstring) :=
  match matchNodes (nodes re) s with
  | Some (matched, groups, rest) => Some (matched :: groups, rest)
  | None => None
  end.

(** [m[i]], and [$i] in a replacement text. *)
Definition group (i : nat) (m : list jsstring) : jsstring := nth i m [].

Section Scan.
Context {C : Type}.
(** The pattern, matched at the head of the input. *)
Variable m : jsstring -> option (C * jsstring).

(** The replacement of all matches: they are looked for from left to
    right, the search resumes where the last match ended, and replacement
    text is not scanned again.  No pattern of the source matches the empty
    string, so every step consumes a character and the length of the input
    is enough fuel ([replaceAll_cons]). *)
Fixpoint replaceFuel (f : C -> jsstring) (n : nat) (s : jsstring) : jsstring :=
  match n with
  | O => s
  | S n' =>
    match s with
    | [] => []
    | c :: rest =>
      match m s with
      | Some (cap, rem) => f cap ++ replaceFuel f n' rem
      | None => c :: replaceFuel f n' rest
      end
    end
  end.

Definition replaceAll (f : C -> jsstring) (s : jsstring) : jsstring :=
  replaceFuel f (length s) s.

(** The first match at or after the head of [s]: the number of characters
    skipped, the match and the input left after it. *)
Fixpoint search (s : jsstring) : option (nat * C * jsstring) :=
  match m s with
  | Some (cap, rem) => Some (O, cap, rem)
  | None =>
    match s with
    | [] => None
    | _ :: rest =>
      match search rest with
      | Some (k, cap, rem) => Some (S k, cap, rem)
      | None => None
      end
    end
  end.

(** [RegExp.prototype.exec] of a global pattern: the search starts at
    [lastIndex]; a match moves [lastIndex] to its end, a failure returns
    [null] and resets [lastIndex] to 0. *)
Definition exec (lastIndex : nat) (s : jsstring) : option C * nat :=
  if (length s <? lastIndex)%nat then (None, O)
  else
    match search (drop lastIndex s) with
    | Some (_, cap, rem) => (Some cap, (length s - length rem)%nat)
    | None => (None, O)
    end.
End Scan.

(** The first match of [re] in [s], at the head only when [re] starts
    with [^]. *)
Definition firstMatch (re : RegExp) (s : jsstring)
    : option (nat * list jsstring * jsstring) :=
  if anchored re then
    match matchAt re s with
    | Some (m, rem) => Some (O, m, rem)
    | None => None
    end
  else search (matchAt re) s.

(** [String.prototype.replace] with a pattern and a replacement computed
    from the match: all matches when the pattern is global, the first one
    otherwise. *)
Definition replace (re : RegExp) (f : list jsstring -> jsstring) (s : jsstring) : jsstring :=
  if global re then replaceAll (matchAt re) f s
  else
    match firstMatch re s with
    | Some (k, m, rem) => take k s ++ f m ++ rem
    | None => s
    end.

(** *** Replacers that throw

    [String.prototype.replace] finds every match before it calls the
    replacer, on one match after the other from the left; the matches do not
    depend on what the replacer returns.  The call ends with the exception
    of the first replacer that throws, from the left, and returns the text
    otherwise. *)
Section Throwing.
Context {C E : Type}.
Variable m : jsstring -> option (C * jsstring).

Fixpoint replaceFuelE (f : C -> E + jsstring) (n : nat) (s : jsstring) : E + jsstring :=
  match n with
  | O => inr s
  | S n' =>
    match s with
    | [] => inr []
    | c :: rest =>
      match m s with
      | Some (cap, rem) =>
        match f cap with
        | inl e => inl e
        | inr text =>
          match replaceFuelE f n' rem with
          | inl e => inl e
          | inr r => inr (text ++ r)
          end
        end
      | None =>
        match replaceFuelE f n' rest with
        | inl e => inl e
        | inr r => inr (c :: r)
        end
      end
    end
  end.

Definition replaceAllE (f : C -> E + jsstring) (s : jsstring) : E + jsstring :=
  replaceFuelE f (length s) s.
End Throwing.

Definition replaceE {E} (re : RegExp) (f : list jsstring -> E + jsstring)
    (s : jsstring) : E + jsstring :=
  if global re then replaceAllE (matchAt re) f s
  else
    match firstMatch re s with
    | Some (k, m, rem) =>
      match f m with
      | inl e => inl e
      | inr text => inr (take k s ++ text ++ rem)
      end
    | None => inr s
    end.

(** [String.prototype.toUpperCase], on the letters it is applied to here:
    a match of [[a-z]]. *)
Definition toUpperCase (s : jsstring) : jsstring :=
  map (fun c => if isLowerAZ c then c - 32 else c) s.

(** ** Per-value formatting and post-processing *)

Inductive Language := vietnamese | english.

(** /\s+/g *)
Definition reSpaces : RegExp :=
  {| anchored := false; nodes := [Plain (Plus isWhiteSpace)]; global := true |}.

(** /([.!?])\s*$/ *)
Definition reSentenceEnd : RegExp :=
  {| anchored := false;
     nodes := [Group (One isTerminal); Plain (Star isWhiteSpace); Plain End];
     global := false |}.

(** /^([a-z])/ *)
Definition reInitial : RegExp :=
  {| anchored := true; nodes := [Group (One isLowerAZ)]; global := false |}.

(** /\s+([,.!?])/g *)
Definition reSpacePunct : RegExp :=
  {| anchored := false;
     nodes := [Plain (Plus isWhiteSpace); Group (One isPunct)];
     global := true |}.

(** /([.!?])([A-ZÁÀ...Đ])/g *)
Definition reSentenceStart : RegExp :=
  {| anchored := false;
     nodes := [Group (One isTerminal); Group (One isUpper)];
     global := true |}.

Definition formatVietnameseText (text : jsstring) (language : Language) : jsstring :=
  match text with
  | [] => []
  | _ =>
    match language with
    | vietnamese =>
      replace reInitial (fun m => toUpperCase (group 0 m))
        (replace reSentenceEnd (fun m => group 1 m)
          (replace reSpaces (fun _ => [SPACE])
            (trim text)))
    | english =>
      replace reInitial (fun m => toUpperCase (group 0 m))
        (replace reSentenceEnd (fun m => group 1 m)
          (replace reSpaces (fun _ => [SPACE])
            (trim text)))
    end
  end.

Definition postProcessVietnameseText (text : jsstring) (language : Language) : jsstring :=
  match language with
  | vietnamese =>
    trim
      (replace reSpaces (fun _ => [SPACE])
        (replace reSentenceStart (fun m => group 1 m ++ [SPACE] ++ group 2 m)
          (replace reSpacePunct (fun m => group 1 m) text)))
  | english => trim text
  end.

(** ** The world: shared pattern objects and the clock *)

(** The two static pattern objects of the class. *)
Inductive Pattern := VIETNAMESE_PLACEHOLDER_PATTERN | PLACEHOLDER_PATTERN.

Definition source (p : Pattern) : RegExp :=
  match p with
  | VIETNAMESE_PLACEHOLDER_PATTERN =>
    (* /\{\{([^}]+)\}\}/g *)
    {| anchored := false;
       nodes := [Plain (One (chr LBRACE)); Plain (One (chr LBRACE));
                 Group (Plus (anyBut RBRACE));
                 Plain (One (chr RBRACE)); Plain (One (chr RBRACE))];
       global := true |}
  | PLACEHOLDER_PATTERN =>
    (* /\{([^}]+)\}/g *)
    {| anchored := false;
       nodes := [Plain (One (chr LBRACE));
                 Group (Plus (anyBut RBRACE));
                 Plain (One (chr RBRACE))];
       global := true |}
  end.

(** [wallClock] lists what the successive readings of the clock return. *)
Record World := {
  vnLastIndex : nat;
  phLastIndex : nat;
  wallClock : nat -> N;
  clockReads : nat
}.

Definition lastIndex (p : Pattern) (w : World) : nat :=
  match p with
  | VIETNAMESE_PLACEHOLDER_PATTERN => vnLastIndex w
  | PLACEHOLDER_PATTERN => phLastIndex w
  end.

Definition M (A : Type) : Type := World -> A * World.

Definition ret {A} (a : A) : M A := fun w => (a, w).

Definition bind {A B} (c : M A) (k : A -> M B) : M B :=
  fun w => let '(a, w') := c w in k a w'.

Notation "'let*' x ':=' c 'in' k" := (bind c (fun x => k))
  (at level 10, x name, c at level 100, k at level 200).

Definition setLastIndex (p : Pattern) (n : nat) : M unit := fun w =>
  (tt,
   match p with
   | VIETNAMESE_PLACEHOLDER_PATTERN =>
     {| vnLastIndex := n; phLastIndex := phLastIndex w;
        wallClock := wallClock w; clockReads := clockReads w |}
   | PLACEHOLDER_PATTERN =>
     {| vnLastIndex := vnLastIndex w; phLastIndex := n;
        wallClock := wallClock w; clockReads := clockReads w |}
   end).

(** [new Date()] *)
Definition newDate : M N := fun w =>
  (wallClock w (clockReads w),
   {| vnLastIndex := vnLastIndex w; phLastIndex := phLastIndex w;
      wallClock := wallClock w; clockReads := S (clockReads w) |}).

(** [pattern.exec(s)] on a shared pattern. *)
Definition execPattern (p : Pattern) (s : jsstring) : M (option (list jsstring)) := fun w =>
  let '(r, li) := exec (matchAt (source p)) (lastIndex p w) s in
  let '(_, w') := setLastIndex p li w in (r, w').

(** What the code throws: the [new Error(message)] of [render], and the
    [TypeError] of a call of what is not a function. *)
Inductive Exception :=
  | Error (message : jsstring)
  | TypeError (message : jsstring).

(** [error.message] *)
Definition message (e : Exception) : jsstring :=
  match e with Error msg | TypeError msg => msg end.

(** [s.replace(pattern, replacer)] on a shared global pattern: the pattern
    is rewound before the scan and is left rewound by the failed match that
    ends it, before the first call of the replacer.  A computation that
    returns or throws is an [M (Exception + A)]. *)
Definition replacePattern (p : Pattern)
    (replacer : list jsstring -> Exception + jsstring)
    (s : jsstring) : M (Exception + jsstring) :=
  let* _ := setLastIndex p O in
  ret (replaceE (source p) replacer s).

(** ** Merging a template *)

(** The own properties of the consultation data. *)
Abbreviation ConsultationData := (gmap (list N) (list N)) (only parsing).

(** The property names of [Object.prototype], which every plain object
    inherits: those of the standard and the legacy ones every engine has.
    Eleven are functions, and [__proto__] reads as [Object.prototype]
    itself. *)
Definition objectPrototype : list jsstring :=
  [js "constructor"; js "hasOwnProperty"; js "isPrototypeOf";
   js "propertyIsEnumerable"; js "toLocaleString"; js "toString";
   js "valueOf"; js "__proto__"; js "__defineGetter__";
   js "__defineSetter__"; js "__lookupGetter__"; js "__lookupSetter__"].

(** What [consultationData[name]] evaluates to: an own string, a member of
    [Object.prototype] (a function or an object), or [undefined]. *)
Inductive Value :=
  | Str (s : jsstring)
  | Inherited
  | Undefined.

Definition getProperty (consultationData : ConsultationData)
    (name : jsstring) : Value :=
  match consultationData !! name with
  | Some s => Str s
  | None => if decide (name ∈ objectPrototype) then Inherited else Undefined
  end.

(** [if (value)]: the empty string and [undefined] are falsy, a function or
    an object is truthy. *)
Definition truthy (value : Value) : bool :=
  match value with
  | Str [] | Undefined => false
  | Str (_ :: _) | Inherited => true
  end.

(** The message of the [TypeError] of [text.trim()] when [text] has no
    [trim], as V8 words it. *)
Definition notAFunction : jsstring := js "text.trim is not a function".

(** [this.formatVietnameseText(value, language)] on what the data gave: a
    function or an object passes the guard [!text] and has no [trim], so
    [text.trim()] throws. *)
Definition formatValue (value : Value) (language : Language) : Exception + jsstring :=
  match value with
  | Str text => inr (formatVietnameseText text language)
  | Inherited => inl (TypeError notAFunction)
  | Undefined => inr []
  end.

(** The two replacers [(match, fieldName) => ...] of [mergeTemplate]. *)
Definition replaceDouble (consultationData : ConsultationData)
    (language : Language) (fieldName : jsstring) : Exception + jsstring :=
  let value := getProperty consultationData (trim fieldName) in
  if truthy value then formatValue value language
  else inr (js "[Chưa có thông tin: " ++ fieldName ++ js "]").

Definition replaceSingle (consultationData : ConsultationData)
    (language : Language) (fieldName : jsstring) : Exception + jsstring :=
  let value := getProperty consultationData (trim fieldName) in
  if truthy value then formatValue value language
  else inr (js "[Missing: " ++ fieldName ++ js "]").

Definition mergeTemplate (template : jsstring)
    (consultationData : ConsultationData) (language : Language)
    : M (Exception + jsstring) :=
  let* result :=
    replacePattern VIETNAMESE_PLACEHOLDER_PATTERN
      (fun m => replaceDouble consultationData language (group 1 m)) template in
  match result with
  | inl error => ret (inl error)
  | inr result =>
    let* result :=
      replacePattern PLACEHOLDER_PATTERN
        (fun m => replaceSingle consultationData language (group 1 m)) result in
    match result with
    | inl error => ret (inl error)
    | inr result => ret (inr (postProcessVietnameseText result language))
    end
  end.

(** ** Extracting placeholders *)

(** [Set.prototype.add] on a set kept in insertion order. *)
Definition setAdd (x : jsstring) (s : list jsstring) : list jsstring :=
  if decide (x ∈ s) then s else s ++ [x].

(** [while ((match = pattern.exec(template)) !== null) placeholders.add(match[1].trim())].
    A successful [exec] moves [lastIndex] forward, so the loop runs at most
    [length template] times before [exec] returns [null]
    ([scanLoop_rewinds]). *)
Fixpoint execLoop (p : Pattern) (fuel : nat) (template : jsstring)
    (placeholders : list jsstring) : M (list jsstring) :=
  match fuel with
  | O => ret placeholders
  | S n =>
    let* r := execPattern p template in
    match r with
    | Some m => execLoop p n template (setAdd (trim (group 1 m)) placeholders)
    | None => ret placeholders
    end
  end.

Definition extractPlaceholders (template : jsstring) : M (list jsstring) :=
  let* placeholders :=
    execLoop VIETNAMESE_PLACEHOLDER_PATTERN (S (length template)) template [] in
  let* _ := setLastIndex PLACEHOLDER_PATTERN O in
  let* placeholders :=
    execLoop PLACEHOLDER_PATTERN (S (length template)) template placeholders in
  ret placeholders.

(** ** Contexts and results *)

(** [keyof CategoryConsultationTemplates] *)
Inductive ConsultationType :=
  | UsageGuide | Safety | Recipe | Technical | Benefits | Care | Storage
  | HealthBenefits | SkinBenefits | CareInstructions | Troubleshooting
  | Compatibility.

(** The property name a consultation type stands for; it is what
    [${consultationType}] prints and what keys the result of [renderAll]. *)
Definition keyName (t : ConsultationType) : jsstring :=
  match t with
  | UsageGuide => js "usage_guide_template"
  | Safety => js "safety_template"
  | Recipe => js "recipe_template"
  | Technical => js "technical_template"
  | Benefits => js "benefits_template"
  | Care => js "care_template"
  | Storage => js "storage_template"
  | HealthBenefits => js "health_benefits_template"
  | SkinBenefits => js "skin_benefits_template"
  | CareInstructions => js "care_instructions_template"
  | Troubleshooting => js "troubleshooting_template"
  | Compatibility => js "compatibility_template"
  end.

Record CategoryConsultationTemplates := {
  usage_guide_template : option jsstring;
  safety_template : option jsstring;
  recipe_template : option jsstring;
  technical_template : option jsstring;
  benefits_template : option jsstring;
  care_template : option jsstring;
  storage_template : option jsstring;
  health_benefits_template : option jsstring;
  skin_benefits_template : option jsstring;
  care_instructions_template : option jsstring;
  troubleshooting_template : option jsstring;
  compatibility_template : option jsstring
}.

(** [templates[consultationType]] *)
Definition templateAt (templates : CategoryConsultationTemplates)
    (t : ConsultationType) : option jsstring :=
  match t with
  | UsageGuide => usage_guide_template templates
  | Safety => safety_template templates
  | Recipe => recipe_template templates
  | Technical => technical_template templates
  | Benefits => benefits_template templates
  | Care => care_template templates
  | Storage => storage_template templates
  | HealthBenefits => health_benefits_template templates
  | SkinBenefits => skin_benefits_template templates
  | CareInstructions => care_instructions_template templates
  | Troubleshooting => troubleshooting_template templates
  | Compatibility => compatibility_template templates
  end.

(** [Omit<ConsultationContext, 'consultationType'>] *)
Record BaseContext := {
  productId : jsstring;
  productName : jsstring;
  categoryName : option jsstring;
  industryName : option jsstring;
  customerName : option jsstring;
  customerContext : option jsstring;
  consultationData : gmap (list N) (list N);
  templates : CategoryConsultationTemplates;
  language : Language
}.

(** [ConsultationContext]: the fields of [BaseContext] and the type. *)
Record ConsultationContext := {
  baseContext :> BaseContext;
  consultationType : ConsultationType
}.

Module Metadata.
Record t := {
  productId : jsstring;
  consultationType : ConsultationType;
  renderTime : N;
  language : Language
}.
End Metadata.

Record RenderedConsultation := {
  content : jsstring;
  templateUsed : jsstring;
  placeholders : list jsstring;
  metadata : Metadata.t
}.

(** ** The operations *)

Definition render (context : ConsultationContext) : M (Exception + RenderedConsultation) :=
  match templateAt (templates context) (consultationType context) with
  | Some (c :: t) =>
    let template := c :: t in
    let* renderedContent :=
      mergeTemplate template (consultationData context) (language context) in
    match renderedContent with
    | inl error => ret (inl error)
    | inr renderedContent =>
      let* placeholders := extractPlaceholders template in
      let* now := newDate in
      ret (inr {| content := renderedContent;
                  templateUsed := template;
                  placeholders := placeholders;
                  metadata :=
                    {| Metadata.productId := productId context;
                       Metadata.consultationType := consultationType context;
                       Metadata.renderTime := now;
                       Metadata.language := language context |} |})
    end
  | _ =>
    ret (inl (Error (js "Template not found for consultation type: "
                       ++ keyName (consultationType context))))
  end.

Definition generatePreview (context : ConsultationContext) : M jsstring :=
  let* result := render context in
  match result with
  | inr result => ret (content result)
  | inl error => ret (js "⚠️ Lỗi template: " ++ message error)
  end.

(** What [validateTemplate] returns. *)
Module Validation.
Record t := {
  isValid : bool;
  errors : list jsstring;
  warnings : list jsstring;
  placeholders : list jsstring
}.
End Validation.

(** [(template.match(/x/g) || []).length] for a one-character pattern. *)
Definition countChar (x : N) (s : jsstring) : nat :=
  length (filter (fun c => c = x) s).

Definition braceError : jsstring := js "Template có cặp ngoặc nhọn không khớp".
Definition emptyError : jsstring := js "Template không được để trống".
Definition fieldWarning (placeholder : jsstring) : jsstring :=
  js "Trường '" ++ placeholder ++ js "' không có trong dữ liệu consultation".

Definition validateTemplate (template : jsstring)
    (availableFields : list jsstring) : M Validation.t :=
  let* placeholders := extractPlaceholders template in
  let errors :=
    if decide (countChar LBRACE template = countChar RBRACE template)
    then [] else [braceError] in
  let warnings :=
    flat_map (fun placeholder =>
                if decide (placeholder ∈ availableFields) then []
                else [fieldWarning placeholder]) placeholders in
  let errors :=
    match trim template with
    | [] => errors ++ [emptyError]
    | _ => errors
    end in
  ret {| Validation.isValid := bool_decide (length errors = O);
         Validation.errors := errors;
         Validation.warnings := warnings;
         Validation.placeholders := placeholders |}.

(** The entry [renderAll] stores when [render] threw. *)
Definition failedEntry (base : BaseContext) (type : ConsultationType)
    (error : Exception) (now : N) : RenderedConsultation :=
  {| content := js "Lỗi tạo nội dung tư vấn: " ++ message error;
     templateUsed := [];
     placeholders := [];
     metadata := {| Metadata.productId := productId base;
                    Metadata.consultationType := type;
                    Metadata.renderTime := now;
                    Metadata.language := language base |} |}.

(** The body of the [forEach] of [renderAll] ([console.error] only logs). *)
Definition renderOne (base : BaseContext) (type : ConsultationType)
    (results : gmap (list N) RenderedConsultation)
    : M (gmap (list N) RenderedConsultation) :=
  let* result :=
    render {| baseContext := base; consultationType := type |} in
  match result with
  | inr rendered => ret (<[keyName type := rendered]> results)
  | inl error =>
    let* now := newDate in
    ret (<[keyName type := failedEntry base type error now]> results)
  end.

Fixpoint forEachType (base : BaseContext) (types : list ConsultationType)
    (results : gmap (list N) RenderedConsultation)
    : M (gmap (list N) RenderedConsultation) :=
  match types with
  | [] => ret results
  | type :: rest =>
    let* results := renderOne base type results in
    forEachType base rest results
  end.

Definition renderAll (base : BaseContext)
    (consultationTypes : list ConsultationType)
    : M (gmap (list N) RenderedConsultation) :=
  forEachType base consultationTypes ∅.

(** The world in which the module has just been loaded. *)
Definition freshWorld (clock : nat -> N) : World :=
  {| vnLastIndex := O; phLastIndex := O; wallClock := clock; clockReads := O |}.

(** ** The loops of [extractPlaceholders], on [lastIndex] alone

    [execLoop] reads and writes nothing of the world but the [lastIndex] of
    its pattern ([execLoop_run]). *)
Fixpoint scanLoop (re : RegExp) (fuel : nat)
    (lastIndex : nat) (template : jsstring) (placeholders : list jsstring)
    : list jsstring * nat :=
  match fuel with
  | O => (placeholders, lastIndex)
  | S n =>
    match exec (matchAt re) lastIndex template with
    | (Some m, li) =>
      scanLoop re n li template (setAdd (trim (group 1 m)) placeholders)
    | (None, li) => (placeholders, li)
    end
  end.

(** ** The specification's reading of a template

    A template is text interleaved with placeholders [{{X}}] and [{X}];
    a placeholder is resolved when the data hold a non-empty value under
    the trimmed field name, and is replaced by that value, formatted;
    otherwise it is replaced by a marker that embeds [X]. *)
Inductive Piece :=
  | Text (s : jsstring)
  | Double (fieldName : jsstring)
  | Single (fieldName : jsstring).

Definition written (p : Piece) : jsstring :=
  match p with
  | Text s => s
  | Double X => [LBRACE; LBRACE] ++ X ++ [RBRACE; RBRACE]
  | Single X => [LBRACE] ++ X ++ [RBRACE]
  end.

Definition missingDouble (X : jsstring) : jsstring :=
  js "[Chưa có thông tin: " ++ X ++ js "]".

Definition missingSingle (X : jsstring) : jsstring :=
  js "[Missing: " ++ X ++ js "]".

Definition resolved (data : gmap (list N) (list N)) (X : jsstring) : option jsstring :=
  match data !! trim X with
  | Some v => if decide (v = []) then None else Some v
  | None => None
  end.

Definition substituted (data : gmap (list N) (list N)) (language : Language)
    (p : Piece) : jsstring :=
  match p with
  | Text s => s
  | Double X =>
    match resolved data X with
    | Some v => formatVietnameseText v language
    | None => missingDouble X
    end
  | Single X =>
    match resolved data X with
    | Some v => formatVietnameseText v language
    | None => missingSingle X
    end
  end.

Definition noOpen (s : jsstring) : Prop := Forall (fun c => c <> LBRACE) s.
Definition noClose (s : jsstring) : Prop := Forall (fun c => c <> RBRACE) s.
Definition braceFree (s : jsstring) : Prop := noOpen s /\ noClose s.

(** A field the data can answer for: the data own it, or no object
    inherits it. *)
Definition answered (data : gmap (list N) (list N)) (X : jsstring) : Prop :=
  getProperty data (trim X) <> Inherited.

(** The templates on which the reading is not ambiguous and the merge
    returns: no [{] in the text between placeholders, non-empty field names
    without braces that the data can answer for, and no [{] in a value that
    the first scan substitutes, since the second scan runs over it. *)
Definition wellFormed (data : gmap (list N) (list N)) (p : Piece) : Prop :=
  match p with
  | Text s => noOpen s
  | Double X =>
    X <> [] /\ braceFree X /\ answered data X /\
    match resolved data X with Some v => noOpen v | None => True end
  | Single X => X <> [] /\ braceFree X /\ answered data X
  end.


(** [String.prototype.startsWith] and [String.prototype.includes] *)
Fixpoint startsWith (hay needle : jsstring) : bool :=
  match needle, hay with
  | [], _ => true
  | a :: needle', b :: hay' => (a =? b) && startsWith hay' needle'
  | _ :: _, [] => false
  end.

Fixpoint includes (hay needle : jsstring) : bool :=
  startsWith hay needle ||
  match hay with
  | [] => false
  | _ :: hay' => includes hay' needle
  end.

(** The world with both patterns rewound. *)
Definition rewound (w : World) : World :=
  {| vnLastIndex := O; phLastIndex := O;
     wallClock := wallClock w; clockReads := clockReads w |}.

(** The two scans of [mergeTemplate], without the world. *)
Definition firstScan (template : jsstring) (data : gmap (list N) (list N))
    (language : Language) : Exception + jsstring :=
  replaceE (source VIETNAMESE_PLACEHOLDER_PATTERN)
    (fun m => replaceDouble data language (group 1 m)) template.

Definition merged (template : jsstring) (data : gmap (list N) (list N))
    (language : Language) : Exception + jsstring :=
  match firstScan template data language with
  | inl error => inl error
  | inr result =>
    replaceE (source PLACEHOLDER_PATTERN)
      (fun m => replaceSingle data language (group 1 m)) result
  end.

(** What [extractPlaceholders] finds when the double-brace pattern is
    rewound, as it is inside [render]. *)
Definition found (template : jsstring) : list jsstring :=
  (scanLoop (source PLACEHOLDER_PATTERN) (S (length template)) O template
     (scanLoop (source VIETNAMESE_PLACEHOLDER_PATTERN) (S (length template)) O
        template []).1).1.

(** The text of the error [render] throws. *)
Definition notFound (type : ConsultationType) : jsstring :=
  js "Template not found for consultation type: " ++ keyName type.

(** A context for the examples: one usage-guide template. *)
Definition usageGuideOnly (template : option jsstring) : CategoryConsultationTemplates :=
  {| usage_guide_template := template; safety_template := None;
     recipe_template := None; technical_template := None;
     benefits_template := None; care_template := None;
     storage_template := None; health_benefits_template := None;
     skin_benefits_template := None; care_instructions_template := None;
     troubleshooting_template := None; compatibility_template := None |}.

Definition sampleBase (template : option jsstring)
    (data : gmap (list N) (list N)) (lang : Language) : BaseContext :=
  {| productId := js "p1"; productName := js "Kem dưỡng";
     categoryName := None; industryName := None; customerName := None;
     customerContext := None; consultationData := data;
     templates := usageGuideOnly template; language := lang |}.

Definition sampleContext (template : option jsstring)
    (data : gmap (list N) (list N)) (lang : Language) : ConsultationContext :=
  {| baseContext := sampleBase template data lang;
     consultationType := UsageGuide |}.

#[global] Instance ConsultationType_eq_dec : EqDecision ConsultationType.
Proof. solve_decision. Defined.

(** Two results that differ at most by their render time. *)
Definition sameButTime (a b : RenderedConsultation) : Prop :=
  content a = content b /\
  templateUsed a = templateUsed b /\
  placeholders a = placeholders b /\
  Metadata.productId (metadata a) = Metadata.productId (metadata b) /\
  Metadata.consultationType (metadata a) = Metadata.consultationType (metadata b) /\
  Metadata.language (metadata a) = Metadata.language (metadata b).

(** The entry of [renderAll] for a type is what [render] gives for it, in
    whatever world: its result when it returns, and when it throws an entry
    made of the error message, no template and no placeholders. *)
Definition entryOf (base : BaseContext) (type : ConsultationType)
    (entry : RenderedConsultation) : Prop :=
  forall w,
    match (render {| baseContext := base; consultationType := type |} w).1 with
    | inr r => sameButTime entry r
    | inl e =>
      content entry = js "Lỗi tạo nội dung tư vấn: " ++ message e /\
      content entry <> [] /\
      templateUsed entry = [] /\
      placeholders entry = [] /\
      Metadata.productId (metadata entry) = productId base /\
      Metadata.consultationType (metadata entry) = type /\
      Metadata.language (metadata entry) = language base
    end.

(** A pattern with an atom that takes at least one character. *)
Definition consuming (p : list Node) : bool :=
  existsb (fun n => match atomOf n with
                    | One _ | Plus _ => true
                    | Star _ | End => false
                    end) p.

(** ** Statistics, search and display names *)

#[global] Instance Language_eq_dec : EqDecision Language.
Proof. solve_decision. Defined.

(** The string a language tag is. *)
Definition languageName (l : Language) : jsstring :=
  match l with
  | vietnamese => js "vietnamese"
  | english => js "english"
  end.

(** What [generateStats] returns. *)
Module Stats.
Record t := {
  totalConsultations : nat;
  templateUsage : gmap (list N) nat;
  averageContentLength : nat;
  languageDistribution : gmap (list N) nat;
  lastRenderTime : option N
}.
End Stats.

(** [counts[key] = (counts[key] || 0) + 1] *)
Definition increment (key : jsstring) (counts : gmap (list N) nat) : gmap (list N) nat :=
  <[key := (default O (counts !! key) + 1)%nat]> counts.

(** The locals of [generateStats] that its loop updates. *)
Record Tally := {
  tallyUsage : gmap (list N) nat;
  tallyLanguages : gmap (list N) nat;
  totalContentLength : nat;
  tallyLast : option N
}.

(** The body of the [forEach] of [generateStats]. *)
Definition tallyOne (acc : Tally) (consultation : RenderedConsultation) : Tally :=
  {| tallyUsage :=
       increment (keyName (Metadata.consultationType (metadata consultation)))
         (tallyUsage acc);
     tallyLanguages :=
       increment (languageName (Metadata.language (metadata consultation)))
         (tallyLanguages acc);
     totalContentLength :=
       (totalContentLength acc + length (content consultation))%nat;
     tallyLast :=
       match tallyLast acc with
       | None => Some (Metadata.renderTime (metadata consultation))
       | Some lastRenderTime =>
         if lastRenderTime <? Metadata.renderTime (metadata consultation)
         then Some (Metadata.renderTime (metadata consultation))
         else Some lastRenderTime
       end |}.

Section Collaborators.
(** [Math.round(total / count)] is a division and a rounding of doubles;
    it is left as a parameter. *)
Variable roundedQuotient : nat -> nat -> nat.

Definition generateStats (consultations : list RenderedConsultation) : Stats.t :=
  let acc :=
    fold_left tallyOne consultations
      {| tallyUsage := ∅; tallyLanguages := ∅;
         totalContentLength := O; tallyLast := None |} in
  {| Stats.totalConsultations := length consultations;
     Stats.templateUsage := tallyUsage acc;
     Stats.averageContentLength :=
       if decide (0 < length consultations)%nat
       then roundedQuotient (totalContentLength acc) (length consultations)
       else O;
     Stats.languageDistribution := tallyLanguages acc;
     Stats.lastRenderTime := tallyLast acc |}.

(** [vietnameseMatch(text, query)] of the module [vietnameseSearch], which
    is not part of these sources: a parameter. *)
Variable vietnameseMatch : jsstring -> jsstring -> bool.

Definition searchConsultationContent (consultations : list RenderedConsultation)
    (query : jsstring) : list RenderedConsultation :=
  match trim query with
  | [] => consultations
  | _ =>
    filter
      (fun consultation =>
         vietnameseMatch (content consultation) query
         || vietnameseMatch
              (keyName (Metadata.consultationType (metadata consultation)))
              query = true)
      consultations
  end.
End Collaborators.

(** [[A-Za-z0-9_]], the class [\w]. *)
Definition isWordChar (c : N) : bool :=
  isLowerAZ c || ((65 <=? c) && (c <=? 90)) || ((48 <=? c) && (c <=? 57))
  || (c =? 95).

(** /_/g *)
Definition reUnderscore : RegExp :=
  {| anchored := false; nodes := [Plain (One (chr 95))]; global := true |}.

(** [.replace(/\b\w/g, char => char.toUpperCase())].  A match is one word
    character that starts the input or follows a character that is not a
    word character; [afterWord] tells which of the two the character before
    the head of [s] was. *)
Fixpoint capitalizeWordStarts (afterWord : bool) (s : jsstring) : jsstring :=
  match s with
  | [] => []
  | c :: rest =>
    (if isWordChar c && negb afterWord then toUpperCase [c] else [c])
      ++ capitalizeWordStarts (isWordChar c) rest
  end.

(** [ConsultationUtils.formatFieldName] *)
Definition formatFieldName (fieldName : jsstring) : jsstring :=
  capitalizeWordStarts false (replace reUnderscore (fun _ => [SPACE]) fieldName).

(** A line feed, written [\n] in the source. *)
Definition NL : jsstring := [10].

(** [ConsultationUtils.getDefaultTemplates] *)
Definition getDefaultTemplates : CategoryConsultationTemplates :=
  {| usage_guide_template :=
       Some (js "Cách sử dụng {productName}:" ++ NL ++ NL ++ js "{{cách_thoa}}" ++ NL ++ NL ++ js "💡 Lưu ý: {{lưu_ý_an_toàn}}");
     safety_template :=
       Some (js "⚠️ Lưu ý an toàn khi sử dụng {productName}:" ++ NL ++ NL ++ js "{{lưu_ý_an_toàn}}" ++ NL ++ NL ++ js "🔍 Kiểm tra: {{kiểm_tra_da}}");
     recipe_template :=
       Some (js "🍳 Công thức với {productName}:" ++ NL ++ NL ++ js "{{công_thức}}" ++ NL ++ NL ++ js "⏰ Thời gian: {{thời_gian}}");
     technical_template := None;
     benefits_template :=
       Some (js "✨ Lợi ích của {productName}:" ++ NL ++ NL ++ js "{{lợi_ích}}" ++ NL ++ NL ++ js "🎯 Kết quả: {{kết_quả}}");
     care_template :=
       Some (js "💚 Chăm sóc với {productName}:" ++ NL ++ NL ++ js "{{cách_chăm_sóc}}" ++ NL ++ NL ++ js "📅 Tần suất: {{tần_suất}}");
     storage_template :=
       Some (js "📦 Bảo quản {productName}:" ++ NL ++ NL ++ js "{{bảo_quản}}" ++ NL ++ NL ++ js "🌡️ Điều kiện: {{điều_kiện}}");
     health_benefits_template := None;
     skin_benefits_template := None;
     care_instructions_template := None;
     troubleshooting_template := None;
     compatibility_template := None |}.

(** [ConsultationUtils.createSampleData] *)
Definition createSampleData : gmap (list N) (list N) :=
  list_to_map
    [(js "cách_thoa",
      js "Thoa đều lên mặt đã làm sạch, massage nhẹ nhàng theo chuyển động tròn");
     (js "lưu_ý_an_toàn",
      js "Không dùng cho da bị kích ứng, tránh vùng mắt");
     (js "bảo_quản",
      js "Nơi khô ráo, thoáng mát, tránh ánh nắng trực tiếp");
     (js "lợi_ích",
      js "Cung cấp độ ẩm, làm mềm da, giảm lão hóa");
     (js "cách_chăm_sóc",
      js "Sử dụng 2 lần/ngày, sáng và tối sau khi làm sạch da");
     (js "tần_suất",
      js "Hàng ngày, đều đặn để đạt hiệu quả tốt nhất")].

(** ** Tidy text

    A text is tidy when its white space is made of single spaces between
    other characters: no white-space character but U+0020, no two of them
    in a row, and nothing for [trim] to remove at either end. *)
Fixpoint singleSpaces (s : jsstring) : bool :=
  match s with
  | [] => true
  | c :: rest =>
    (if isWhiteSpace c
     then (c =? SPACE) &&
          match rest with
          | d :: _ => negb (isWhiteSpace d)
          | [] => true
          end
     else true) && singleSpaces rest
  end.

Definition tidy (s : jsstring) : Prop :=
  singleSpaces s = true /\ trim s = s.

(** Whether some character of the class [P] is immediately followed by one
    of the class [Q]. *)
Fixpoint adjacent (P Q : N -> bool) (s : jsstring) : bool :=
  match s with
  | [] => false
  | a :: rest =>
    (P a && match rest with b :: _ => Q b | [] => false end)
    || adjacent P Q rest
  end.

(** * Properties *)

(** String constants are only ever evaluated by [vm_compute]. *)
Opaque js.

(** ** The matcher *)

Lemma firstSome_Some {A B} (k : A -> option B) l b :
  firstSome k l = Some b -> exists a, a ∈ l /\ k a = Some b.
Proof.
  induction l as [|a l IH]; [done|]. simpl.
  destruct (k a) as [b'|] eqn:E.
  - intros [= <-]. exists a. split; [by left | done].
  - intros (a' & Ha' & Hk)%IH. exists a'. split; [by right | done].
Qed.

Lemma runs_split cls s x r : (x, r) ∈ runs cls s -> s = x ++ r.
Proof.
  revert x r. induction s as [|c s IH]; intros x r; simpl.
  - by intros [= -> ->]%list_elem_of_singleton.
  - destruct (cls c).
    + intros [Hin|[= -> ->]%list_elem_of_singleton]%elem_of_app; [|done].
      apply list_elem_of_fmap in Hin as ([x' r'] & [= -> ->] & Hin).
      simpl. f_equal. by apply IH.
    + by intros [= -> ->]%list_elem_of_singleton.
Qed.

(** Every way an atom matches takes a prefix of the input. *)
Lemma alternatives_split a s x r : (x, r) ∈ alternatives a s -> s = x ++ r.
Proof.
  destruct a as [cls|cls|cls|]; simpl.
  - destruct s as [|c s]; [by intros ?%elem_of_nil|].
    destruct (cls c); [|by intros ?%elem_of_nil].
    by intros [= -> ->]%list_elem_of_singleton.
  - destruct s as [|c s]; [by intros ?%elem_of_nil|].
    destruct (cls c); [|by intros ?%elem_of_nil].
    intros ([x' r'] & [= -> ->] & Hin)%list_elem_of_fmap.
    simpl. f_equal. by apply runs_split in Hin.
  - apply runs_split.
  - destruct s; [|by intros ?%elem_of_nil].
    by intros [= -> ->]%list_elem_of_singleton.
Qed.

Lemma alternatives_consuming a s x r :
  match a with One _ | Plus _ => True | Star _ | End => False end ->
  (x, r) ∈ alternatives a s -> x <> [].
Proof.
  destruct a as [cls|cls|cls|]; simpl; try done; intros _.
  - destruct s as [|c s]; [by intros ?%elem_of_nil|].
    destruct (cls c); [|by intros ?%elem_of_nil].
    by intros [= -> ->]%list_elem_of_singleton.
  - destruct s as [|c s]; [by intros ?%elem_of_nil|].
    destruct (cls c); [|by intros ?%elem_of_nil].
    by intros ([x' r'] & [= -> ->] & Hin)%list_elem_of_fmap.
Qed.

(** One step of [matchNodes], as a relation. *)
Lemma matchNodes_cons n p s matched groups rest :
  matchNodes (n :: p) s = Some (matched, groups, rest) ->
  exists x r matched' groups',
    (x, r) ∈ alternatives (atomOf n) s /\
    matchNodes p r = Some (matched', groups', rest) /\
    matched = x ++ matched' /\
    groups = match n with Group _ => x :: groups' | Plain _ => groups' end.
Proof.
  cbn [matchNodes]. intros ([x r] & Hin & Hk)%firstSome_Some.
  destruct (matchNodes p r) as [[[matched' groups'] rest']|] eqn:Hp; [|done].
  injection Hk as <- <- <-. by exists x, r, matched', groups'.
Qed.

(** A match takes a prefix of the input, and its groups are parts of it. *)
Lemma matchNodes_split p s matched groups rest :
  matchNodes p s = Some (matched, groups, rest) ->
  s = matched ++ rest /\
  forall P : N -> Prop, Forall P matched -> Forall (Forall P) groups.
Proof.
  revert s matched groups. induction p as [|n p IH]; intros s matched groups.
  - intros [= <- <- <-]. split; [done|]. by constructor.
  - intros (x & r & matched' & groups' & Hin & Hp & -> & ->)%matchNodes_cons.
    apply alternatives_split in Hin as ->.
    destruct (IH _ _ _ Hp) as [-> Hgroups]. split; [by rewrite app_assoc|].
    intros P [Hx Hm]%Forall_app. destruct n; [by apply Hgroups|].
    constructor; [done | by apply Hgroups].
Qed.

Lemma matchNodes_consuming p s matched groups rest :
  consuming p = true ->
  matchNodes p s = Some (matched, groups, rest) -> matched <> [].
Proof.
  revert s matched groups. induction p as [|n p IH]; intros s matched groups;
    [done|].
  cbn [consuming existsb]. intros Hc.
  intros (x & r & matched' & groups' & Hin & Hp & -> & _)%matchNodes_cons.
  apply orb_true_iff in Hc as [Hn|Hc].
  - assert (x <> []) as Hx.
    { eapply alternatives_consuming; [|exact Hin]. by destruct (atomOf n). }
    by destruct x.
  - specialize (IH _ _ _ Hc Hp). destruct matched'; [done|]. by destruct x.
Qed.

Lemma matchAt_shrinks re :
  consuming (nodes re) = true ->
  forall s m rem, matchAt re s = Some (m, rem) -> (length rem < length s)%nat.
Proof.
  intros Hc s m rem. unfold matchAt.
  destruct (matchNodes (nodes re) s) as [[[matched groups] rest]|] eqn:E;
    [|done].
  intros [= <- <-]. pose proof (matchNodes_consuming _ _ _ _ _ Hc E) as Hne.
  apply matchNodes_split in E as [-> _]. rewrite length_app.
  destruct matched; [done|]. simpl. lia.
Qed.

Lemma matchAt_Forall (P : N -> Prop) re s m rem :
  Forall P s -> matchAt re s = Some (m, rem) ->
  Forall (Forall P) m /\ Forall P rem.
Proof.
  intros Hs. unfold matchAt.
  destruct (matchNodes (nodes re) s) as [[[matched groups] rest]|] eqn:E;
    [|done].
  intros [= <- <-]. apply matchNodes_split in E as [-> Hgroups].
  apply Forall_app in Hs as [Hm Hrest]. split; [|done].
  constructor; [done | by apply Hgroups].
Qed.

Lemma group_Forall (P : N -> Prop) i m :
  Forall (Forall P) m -> Forall P (group i m).
Proof.
  intros Hm. unfold group. revert i.
  induction Hm as [|g m Hg Hm IH]; intros [|i]; simpl; auto.
Qed.

(** ** Scanning *)

Section ScanFacts.
Context {C : Type}.
Variable m : jsstring -> option (C * jsstring).

(** A match consumes at least one character. *)
Hypothesis m_shrinks :
  forall s cap rem, m s = Some (cap, rem) -> (length rem < length s)%nat.

Lemma replaceFuel_enough f n n' s :
  (length s <= n)%nat -> (length s <= n')%nat ->
  replaceFuel m f n s = replaceFuel m f n' s.
Proof.
  revert n' s. induction n as [|n IH]; intros n' s Hn Hn'.
  - destruct s; [|simpl in Hn; lia]. by destruct n'.
  - destruct n' as [|n'].
    + destruct s; [done|simpl in Hn'; lia].
    + destruct s as [|c rest]; [done|]. simpl in Hn, Hn'. simpl.
      destruct (m (c :: rest)) as [[cap rem]|] eqn:Hm.
      * apply m_shrinks in Hm. simpl in Hm.
        f_equal. apply IH; lia.
      * f_equal. apply IH; lia.
Qed.

Lemma replaceAll_nil f : replaceAll m f [] = [].
Proof. done. Qed.

(** The scan, one position at a time. *)
Lemma replaceAll_cons f c rest :
  replaceAll m f (c :: rest) =
  match m (c :: rest) with
  | Some (cap, rem) => f cap ++ replaceAll m f rem
  | None => c :: replaceAll m f rest
  end.
Proof.
  unfold replaceAll. simpl.
  destruct (m (c :: rest)) as [[cap rem]|] eqn:Hm; [|done].
  apply m_shrinks in Hm. simpl in Hm.
  f_equal. apply replaceFuel_enough; lia.
Qed.

(** Text none of whose characters can start a match is copied. *)
Lemma replaceAll_skip f (P : N -> Prop) pre rest :
  (forall c s, P c -> m (c :: s) = None) ->
  Forall P pre ->
  replaceAll m f (pre ++ rest) = pre ++ replaceAll m f rest.
Proof.
  intros Hno. induction 1 as [|c pre Hc Hpre IH]; [done|].
  simpl. rewrite replaceAll_cons, (Hno _ _ Hc). by f_equal.
Qed.

Context {E : Type}.

Lemma replaceFuelE_enough (f : C -> E + jsstring) n n' s :
  (length s <= n)%nat -> (length s <= n')%nat ->
  replaceFuelE m f n s = replaceFuelE m f n' s.
Proof.
  revert n' s. induction n as [|n IH]; intros n' s Hn Hn'.
  - destruct s; [|simpl in Hn; lia]. by destruct n'.
  - destruct n' as [|n'].
    + destruct s; [done|simpl in Hn'; lia].
    + destruct s as [|c rest]; [done|]. simpl in Hn, Hn'. simpl.
      destruct (m (c :: rest)) as [[cap rem]|] eqn:Hm.
      * apply m_shrinks in Hm. simpl in Hm.
        by rewrite (IH n' rem) by lia.
      * by rewrite (IH n' rest) by lia.
Qed.

(** The scan with a replacer that may throw, one position at a time. *)
Lemma replaceAllE_cons (f : C -> E + jsstring) c rest :
  replaceAllE m f (c :: rest) =
  match m (c :: rest) with
  | Some (cap, rem) =>
    match f cap with
    | inl e => inl e
    | inr text =>
      match replaceAllE m f rem with
      | inl e => inl e
      | inr r => inr (text ++ r)
      end
    end
  | None =>
    match replaceAllE m f rest with
    | inl e => inl e
    | inr r => inr (c :: r)
    end
  end.
Proof.
  unfold replaceAllE. simpl.
  destruct (m (c :: rest)) as [[cap rem]|] eqn:Hm; [|done].
  apply m_shrinks in Hm. simpl in Hm.
  by rewrite (replaceFuelE_enough f (length rest) (length rem) rem) by lia.
Qed.

Lemma replaceAllE_skip (f : C -> E + jsstring) (P : N -> Prop) pre rest :
  (forall c s, P c -> m (c :: s) = None) ->
  Forall P pre ->
  replaceAllE m f (pre ++ rest) =
  match replaceAllE m f rest with
  | inl e => inl e
  | inr r => inr (pre ++ r)
  end.
Proof.
  intros Hno. induction 1 as [|c pre Hc Hpre IH].
  - simpl. by destruct (replaceAllE m f rest).
  - simpl. rewrite replaceAllE_cons, (Hno _ _ Hc), IH.
    by destruct (replaceAllE m f rest).
Qed.

(** A scan throws only what a replacer throws. *)
Lemma replaceAllE_inl (f : C -> E + jsstring) s e :
  replaceAllE m f s = inl e -> exists cap, f cap = inl e.
Proof.
  unfold replaceAllE. generalize (length s) as n. intros n. revert s.
  induction n as [|n IH]; intros s; [done|].
  destruct s as [|c rest]; [done|]. simpl.
  destruct (m (c :: rest)) as [[cap rem]|].
  - destruct (f cap) as [e'|text] eqn:Hf; [intros [= <-]; eauto|].
    destruct (replaceFuelE m f n rem) as [e'|r] eqn:Hr; [|done].
    intros [= <-]. eauto.
  - destruct (replaceFuelE m f n rest) as [e'|r] eqn:Hr; [|done].
    intros [= <-]. eauto.
Qed.

Lemma search_shrinks s k cap rem :
  search m s = Some (k, cap, rem) -> (length rem < length s)%nat.
Proof.
  revert k. induction s as [|c rest IH]; intros k; simpl.
  - destruct (m []) as [[cap' rem']|] eqn:Hm; [|done].
    intros [= <- <- <-]. by apply m_shrinks in Hm.
  - destruct (m (c :: rest)) as [[cap' rem']|] eqn:Hm.
    + intros [= <- <- <-]. by apply m_shrinks in Hm.
    + destruct (search m rest) as [[[k' cap'] rem']|]; [|done].
      intros [= <- <- <-]. specialize (IH _ eq_refl). lia.
Qed.

(** A successful [exec] moves [lastIndex] forward, within the input. *)
Lemma exec_advances li s cap li' :
  exec m li s = (Some cap, li') -> (li < li' <= length s)%nat.
Proof.
  unfold exec. destruct (length s <? li)%nat eqn:Hlt; [done|].
  apply Nat.ltb_ge in Hlt.
  destruct (search m (drop li s)) as [[[k cap'] rem]|] eqn:Hs; [|done].
  intros [= <- <-]. apply search_shrinks in Hs.
  rewrite length_drop in Hs. lia.
Qed.

Lemma exec_null li s li' : exec m li s = (None, li') -> li' = O.
Proof.
  unfold exec. destruct (length s <? li)%nat; [by intros [= <-]|].
  destruct (search m (drop li s)) as [[[k cap'] rem]|]; [done|].
  by intros [= <-].
Qed.
End ScanFacts.

(** Replacement keeps a property of the characters that the replacement
    text has. *)
Lemma replace_Forall (P : N -> Prop) re f s :
  (forall m, Forall (Forall P) m -> Forall P (f m)) ->
  Forall P s -> Forall P (replace re f s).
Proof.
  intros Hf Hs. unfold replace. destruct (global re).
  - unfold replaceAll. generalize (length s) as n. intros n. revert s Hs.
    induction n as [|n IH]; intros s Hs; [done|].
    destruct s as [|c rest]; [done|]. simpl.
    destruct (matchAt re (c :: rest)) as [[m rem]|] eqn:E.
    + destruct (matchAt_Forall P _ _ _ _ Hs E) as [Hm Hrem].
      apply Forall_app. split; [by apply Hf | by apply IH].
    + apply Forall_cons in Hs as [Hc Hrest].
      apply Forall_cons. split; [done | by apply IH].
  - destruct (firstMatch re s) as [[[k m] rem]|] eqn:E; [|done].
    assert (Forall (Forall P) m /\ Forall P rem) as [Hm Hrem].
    { unfold firstMatch in E. destruct (anchored re).
      - destruct (matchAt re s) as [[m' rem']|] eqn:E'; [|done].
        injection E as _ <- <-. by eapply matchAt_Forall.
      - clear Hf. revert k E. induction Hs as [|c s Hc Hs IH]; intros k; simpl.
        + destruct (matchAt re []) as [[m' rem']|] eqn:E'; [|done].
          intros [= _ <- <-]. by eapply matchAt_Forall.
        + destruct (matchAt re (c :: s)) as [[m' rem']|] eqn:E'.
          * intros [= _ <- <-]. eapply matchAt_Forall; [|exact E'].
            by constructor.
          * destruct (search (matchAt re) s) as [[[k' m'] rem']|]; [|done].
            intros [= _ <- <-]. by eapply IH. }
    rewrite !Forall_app. repeat split; [by apply Forall_take|by apply Hf|done].
Qed.

(** ** The patterns of the source *)

Lemma source_shrinks p s m rem :
  matchAt (source p) s = Some (m, rem) -> (length rem < length s)%nat.
Proof. apply matchAt_shrinks. by destruct p. Qed.

(** A node for one character, at a non-empty input. *)
Lemma matchNodes_one n cls p c s :
  atomOf n = One cls ->
  matchNodes (n :: p) (c :: s) =
  if cls c then
    match matchNodes p s with
    | Some (matched, groups, rest) =>
      Some (c :: matched,
            match n with Group _ => [c] :: groups | Plain _ => groups end,
            rest)
    | None => None
    end
  else None.
Proof.
  intros Hn. cbn [matchNodes]. rewrite Hn. cbn [alternatives].
  destruct (cls c); [|done]. cbn [firstSome].
  by destruct (matchNodes p s) as [[[??]?]|].
Qed.

(** The longest run comes first. *)
Lemma runs_head cls x r :
  Forall (fun c => cls c = true) x ->
  match r with [] => True | c :: _ => cls c = false end ->
  exists tl, runs cls (x ++ r) = (x, r) :: tl.
Proof.
  intros Hx Hr. induction Hx as [|c x Hc Hx [tl IH]]; simpl.
  - destruct r as [|c r]; [by exists []|]. simpl. rewrite Hr. by exists [].
  - rewrite Hc, IH. simpl. eauto.
Qed.

(** A node [cls+] takes the whole run when the rest of the pattern matches
    after it. *)
Lemma matchNodes_plus n cls p c x r matched groups rest :
  atomOf n = Plus cls ->
  cls c = true ->
  Forall (fun c => cls c = true) x ->
  match r with [] => True | c :: _ => cls c = false end ->
  matchNodes p r = Some (matched, groups, rest) ->
  matchNodes (n :: p) (c :: x ++ r) =
  Some ((c :: x) ++ matched,
        match n with Group _ => (c :: x) :: groups | Plain _ => groups end,
        rest).
Proof.
  intros Hn Hc Hx Hr Hp. cbn [matchNodes]. rewrite Hn. cbn [alternatives].
  rewrite Hc. destruct (runs_head cls x r Hx Hr) as [tl ->].
  cbn [map firstSome]. by rewrite Hp.
Qed.

Lemma anyBut_noClose X :
  noClose X -> Forall (fun c => anyBut RBRACE c = true) X.
Proof.
  intros HX. eapply Forall_impl; [exact HX|].
  intros c Hc%N.eqb_neq. unfold anyBut. by rewrite Hc.
Qed.

Lemma matchAt_double_not_open c s :
  c <> LBRACE -> matchAt (source VIETNAMESE_PLACEHOLDER_PATTERN) (c :: s) = None.
Proof.
  intros Hc%N.eqb_neq. unfold matchAt. cbn [source nodes].
  rewrite (matchNodes_one _ (chr LBRACE)) by done. unfold chr. by rewrite Hc.
Qed.

Lemma matchAt_double_one_open b c s :
  c <> LBRACE -> matchAt (source VIETNAMESE_PLACEHOLDER_PATTERN) (b :: c :: s) = None.
Proof.
  intros Hc%N.eqb_neq. unfold matchAt. cbn [source nodes].
  rewrite (matchNodes_one _ (chr LBRACE)) by done.
  rewrite (matchNodes_one _ (chr LBRACE)) by done.
  unfold chr. rewrite Hc. by destruct (b =? LBRACE).
Qed.

Lemma matchAt_single_not_open c s :
  c <> LBRACE -> matchAt (source PLACEHOLDER_PATTERN) (c :: s) = None.
Proof.
  intros Hc%N.eqb_neq. unfold matchAt. cbn [source nodes].
  rewrite (matchNodes_one _ (chr LBRACE)) by done. unfold chr. by rewrite Hc.
Qed.

Lemma matchAt_double_field X rest :
  X <> [] -> noClose X ->
  matchAt (source VIETNAMESE_PLACEHOLDER_PATTERN)
    ([LBRACE; LBRACE] ++ X ++ [RBRACE; RBRACE] ++ rest) =
  Some ([[LBRACE; LBRACE] ++ X ++ [RBRACE; RBRACE]; X], rest).
Proof.
  intros HX Hclose%anyBut_noClose. destruct X as [|c X]; [done|].
  apply Forall_cons in Hclose as [Hc Hclose].
  unfold matchAt. cbn [source nodes app].
  rewrite !(matchNodes_one _ (chr LBRACE)) by done.
  unfold chr at 1 2. rewrite !N.eqb_refl.
  rewrite (matchNodes_plus _ (anyBut RBRACE) _ c X (RBRACE :: RBRACE :: rest)
             [RBRACE; RBRACE] [] rest); done.
Qed.

Lemma matchAt_single_field X rest :
  X <> [] -> noClose X ->
  matchAt (source PLACEHOLDER_PATTERN) ([LBRACE] ++ X ++ [RBRACE] ++ rest) =
  Some ([[LBRACE] ++ X ++ [RBRACE]; X], rest).
Proof.
  intros HX Hclose%anyBut_noClose. destruct X as [|c X]; [done|].
  apply Forall_cons in Hclose as [Hc Hclose].
  unfold matchAt. cbn [source nodes app].
  rewrite !(matchNodes_one _ (chr LBRACE)) by done.
  unfold chr at 1. rewrite !N.eqb_refl.
  rewrite (matchNodes_plus _ (anyBut RBRACE) _ c X (RBRACE :: rest)
             [RBRACE] [] rest); done.
Qed.

(** ** The world *)

(** [mergeTemplate] returns the post-processing of what the two scans
    give, or throws what one of them throws; the pattern of the second scan
    is only rewound when the first scan returns. *)
Lemma mergeTemplate_run template data language w :
  mergeTemplate template data language w =
  (match merged template data language with
   | inl error => inl error
   | inr result => inr (postProcessVietnameseText result language)
   end,
   match firstScan template data language with
   | inl _ => (setLastIndex VIETNAMESE_PLACEHOLDER_PATTERN O w).2
   | inr _ => rewound w
   end).
Proof.
  unfold mergeTemplate, merged, firstScan, replacePattern, bind. destruct w.
  cbn -[replaceE source postProcessVietnameseText].
  destruct (replaceE (source VIETNAMESE_PLACEHOLDER_PATTERN) _ template)
    as [e|result]; [done|].
  cbn -[replaceE source postProcessVietnameseText].
  by destruct (replaceE (source PLACEHOLDER_PATTERN) _ result).
Qed.

Lemma execLoop_run p fuel template acc w :
  execLoop p fuel template acc w =
  let r := scanLoop (source p) fuel (lastIndex p w) template acc in
  (r.1, (setLastIndex p r.2 w).2).
Proof.
  revert acc w. induction fuel as [|n IH]; intros acc w.
  - by destruct p, w.
  - cbn [execLoop scanLoop]. unfold bind at 1. unfold execPattern.
    destruct (exec (matchAt (source p)) (lastIndex p w) template) as [[m|] li];
      [|done].
    cbn -[scanLoop execLoop]. rewrite IH. by destruct p, w.
Qed.

(** The loop stops because [exec] has returned [null], which leaves
    [lastIndex] at 0: the fuel is never what ends it. *)
Lemma scanLoop_rewinds p fuel li template acc :
  (length template - li < fuel)%nat ->
  (scanLoop (source p) fuel li template acc).2 = O.
Proof.
  revert li acc. induction fuel as [|n IH]; intros li acc Hf; [lia|].
  simpl. destruct (exec (matchAt (source p)) li template) as [[m|] li'] eqn:E.
  - apply (exec_advances _ (source_shrinks p)) in E. apply IH. lia.
  - by apply exec_null in E.
Qed.

Lemma extractPlaceholders_run template w :
  extractPlaceholders template w =
  let seen := scanLoop (source VIETNAMESE_PLACEHOLDER_PATTERN)
                (S (length template)) (vnLastIndex w) template [] in
  ((scanLoop (source PLACEHOLDER_PATTERN) (S (length template)) O template
      seen.1).1,
   {| vnLastIndex := seen.2; phLastIndex := O;
      wallClock := wallClock w; clockReads := clockReads w |}).
Proof.
  unfold extractPlaceholders, bind. rewrite execLoop_run.
  cbn -[scanLoop execLoop source]. rewrite execLoop_run. cbn -[scanLoop source].
  by rewrite (scanLoop_rewinds PLACEHOLDER_PATTERN) by lia.
Qed.

(** Every operation that scans leaves both patterns rewound. *)
Lemma extractPlaceholders_rewinds template w :
  (extractPlaceholders template w).2 = rewound w.
Proof.
  rewrite extractPlaceholders_run. cbn -[scanLoop source].
  by rewrite (scanLoop_rewinds VIETNAMESE_PLACEHOLDER_PATTERN) by lia.
Qed.

Lemma setAdd_NoDup x (s : list jsstring) : NoDup s -> NoDup (setAdd x s).
Proof.
  intros Hs. unfold setAdd. case_decide; [done|].
  apply NoDup_app. repeat split; [done| |apply NoDup_singleton].
  intros y Hy ->%list_elem_of_singleton. done.
Qed.

Lemma scanLoop_NoDup re fuel li template acc :
  NoDup acc -> NoDup (scanLoop re fuel li template acc).1.
Proof.
  revert li acc. induction fuel as [|n IH]; intros li acc Hacc; [done|].
  simpl. destruct (exec (matchAt re) li template) as [[m|] li']; [|done].
  by apply IH, setAdd_NoDup.
Qed.

Lemma extractPlaceholders_NoDup template w :
  NoDup (extractPlaceholders template w).1.
Proof.
  rewrite extractPlaceholders_run. cbn -[scanLoop source].
  apply scanLoop_NoDup, scanLoop_NoDup. constructor.
Qed.

(** ** Characters kept by formatting and post-processing *)

Section Kept.
Variable P : N -> Prop.
Hypothesis P_space : P SPACE.

Lemma trimStart_Forall s : Forall P s -> Forall P (trimStart s).
Proof.
  induction 1 as [|c s Hc Hs IH]; simpl; [done|].
  destruct (isWhiteSpace c); [done | by constructor].
Qed.

Lemma trim_Forall s : Forall P s -> Forall P (trim s).
Proof.
  intros Hs. unfold trim, trimEnd.
  by apply Forall_reverse, trimStart_Forall, Forall_reverse, trimStart_Forall.
Qed.


Hypothesis P_capital : forall c, isLowerAZ c = true -> P (c - 32).

Lemma toUpperCase_Forall s : Forall P s -> Forall P (toUpperCase s).
Proof.
  unfold toUpperCase. induction 1 as [|c s Hc Hs IH]; simpl; [done|].
  constructor; [|done]. destruct (isLowerAZ c) eqn:E; auto.
Qed.

Lemma formatVietnameseText_Forall s language :
  Forall P s -> Forall P (formatVietnameseText s language).
Proof.
  intros Hs. unfold formatVietnameseText. destruct s; [done|].
  assert (Forall P
            (replace reInitial (fun m => toUpperCase (group 0 m))
               (replace reSentenceEnd (fun m => group 1 m)
                  (replace reSpaces (fun _ => [SPACE]) (trim (n :: s))))))
    as H; [|by destruct language].
  apply replace_Forall.
  { intros m Hm. by apply toUpperCase_Forall, group_Forall. }
  apply replace_Forall.
  { intros m Hm. by apply group_Forall. }
  apply replace_Forall; [by repeat constructor|]. by apply trim_Forall.
Qed.
End Kept.

Lemma capital_not_brace c b :
  (b = LBRACE \/ b = RBRACE) -> isLowerAZ c = true -> c - 32 <> b.
Proof.
  unfold isLowerAZ, LBRACE, RBRACE.
  intros Hb [H1%N.leb_le H2%N.leb_le]%andb_true_iff. lia.
Qed.

Lemma formatVietnameseText_noOpen s language :
  noOpen s -> noOpen (formatVietnameseText s language).
Proof.
  apply formatVietnameseText_Forall; [done|].
  intros c. apply capital_not_brace. by left.
Qed.


(** ** The two scans on a well-formed template *)

(** The first scan replaces the double-brace placeholders, when their
    replacer returns, and copies the rest. *)
Lemma replaceAllE_double (f : list jsstring -> Exception + jsstring) g pieces :
  Forall (fun p => match p with
                   | Text s => noOpen s
                   | Double X =>
                     X <> [] /\ braceFree X /\ f [written p; X] = inr (g X)
                   | Single X => X <> [] /\ braceFree X
                   end) pieces ->
  replaceAllE (matchAt (source VIETNAMESE_PLACEHOLDER_PATTERN)) f
    (flat_map written pieces) =
  inr (flat_map (fun p => match p with
                          | Double X => g X
                          | _ => written p
                          end) pieces).
Proof.
  pose proof (source_shrinks VIETNAMESE_PLACEHOLDER_PATTERN) as Hshrinks.
  induction 1 as [|p pieces Hp Hps IH]; [done|].
  cbn [flat_map]. destruct p as [s|X|X].
  - cbn [written].
    rewrite (replaceAllE_skip _ Hshrinks _ _ _ _ matchAt_double_not_open Hp).
    by rewrite IH.
  - destruct Hp as (HX & [_ Hclose] & Hf). cbn [written] in *.
    rewrite <- !app_assoc. change ([LBRACE; LBRACE] ++ ?a) with (LBRACE :: LBRACE :: a).
    rewrite (replaceAllE_cons _ Hshrinks).
    change (LBRACE :: LBRACE :: ?a) with ([LBRACE; LBRACE] ++ a).
    rewrite (matchAt_double_field X _ HX Hclose). by rewrite Hf, IH.
  - destruct Hp as (HX & Hopen & Hclose). cbn [written].
    destruct X as [|c X]; [done|]. apply Forall_cons in Hopen as [Hc Hopen].
    rewrite <- !app_assoc. cbn [app].
    rewrite (replaceAllE_cons _ Hshrinks).
    rewrite (matchAt_double_one_open _ _ _ Hc).
    rewrite (replaceAllE_cons _ Hshrinks).
    rewrite (matchAt_double_not_open _ _ Hc).
    rewrite (replaceAllE_skip _ Hshrinks _ _ _ _ matchAt_double_not_open Hopen).
    rewrite (replaceAllE_cons _ Hshrinks).
    rewrite matchAt_double_not_open by done. by rewrite IH.
Qed.

(** The second scan replaces the single-brace placeholders, when their
    replacer returns, and copies the rest, text without [{] that the first
    scan has put in included.  What it puts in is not scanned. *)
Lemma replaceAllE_single (f : list jsstring -> Exception + jsstring) g h pieces :
  Forall (fun p => match p with
                   | Text s => noOpen s
                   | Double X => noOpen (g X)
                   | Single X =>
                     X <> [] /\ braceFree X /\ f [written p; X] = inr (h X)
                   end) pieces ->
  replaceAllE (matchAt (source PLACEHOLDER_PATTERN)) f
    (flat_map (fun p => match p with Double X => g X | _ => written p end) pieces) =
  inr (flat_map (fun p => match p with
                          | Text s => s
                          | Double X => g X
                          | Single X => h X
                          end) pieces).
Proof.
  pose proof (source_shrinks PLACEHOLDER_PATTERN) as Hshrinks.
  induction 1 as [|p pieces Hp Hps IH]; [done|].
  cbn [flat_map]. destruct p as [s|X|X].
  - cbn [written].
    rewrite (replaceAllE_skip _ Hshrinks _ _ _ _ matchAt_single_not_open Hp).
    by rewrite IH.
  - rewrite (replaceAllE_skip _ Hshrinks _ _ _ _ matchAt_single_not_open Hp).
    by rewrite IH.
  - destruct Hp as (HX & [_ Hclose] & Hf). cbn [written] in *.
    rewrite <- !app_assoc. change ([LBRACE] ++ ?a) with (LBRACE :: a).
    rewrite (replaceAllE_cons _ Hshrinks).
    change (LBRACE :: ?a) with ([LBRACE] ++ a).
    rewrite (matchAt_single_field X _ HX Hclose). by rewrite Hf, IH.
Qed.

(** A replacer returns what the specification says when the data can
    answer for the field. *)
Lemma replaceDouble_substituted data language X :
  answered data X ->
  replaceDouble data language X = inr (substituted data language (Double X)).
Proof.
  unfold replaceDouble, answered, getProperty, substituted, resolved,
    missingDouble.
  destruct (data !! trim X) as [[|c v]|]; [done|done|].
  by case_decide.
Qed.

Lemma replaceSingle_substituted data language X :
  answered data X ->
  replaceSingle data language X = inr (substituted data language (Single X)).
Proof.
  unfold replaceSingle, answered, getProperty, substituted, resolved,
    missingSingle.
  destruct (data !! trim X) as [[|c v]|]; [done|done|].
  by case_decide.
Qed.

(** It throws when the data do not own the field and every object inherits
    it. *)
Lemma replacer_throws data language X :
  ~ answered data X ->
  replaceDouble data language X = inl (TypeError notAFunction) /\
  replaceSingle data language X = inl (TypeError notAFunction).
Proof.
  unfold replaceDouble, replaceSingle, answered.
  destruct (getProperty data (trim X)); intros H; try done; by destruct H.
Qed.

Lemma js_noOpen_decide (s : jsstring) :
  forallb (fun c => negb (c =? LBRACE)) s = true -> noOpen s.
Proof.
  intros H. apply Forall_forall. intros c Hc%list_elem_of_In.
  rewrite forallb_forall in H. specialize (H _ Hc).
  by apply negb_true_iff, N.eqb_neq in H.
Qed.

Lemma js_noClose_decide (s : jsstring) :
  forallb (fun c => negb (c =? RBRACE)) s = true -> noClose s.
Proof.
  intros H. apply Forall_forall. intros c Hc%list_elem_of_In.
  rewrite forallb_forall in H. specialize (H _ Hc).
  by apply negb_true_iff, N.eqb_neq in H.
Qed.

Lemma missingDouble_noOpen X : noOpen X -> noOpen (missingDouble X).
Proof.
  intros HX. unfold missingDouble, noOpen. rewrite !Forall_app.
  repeat split; [|done|]; by apply js_noOpen_decide; vm_compute.
Qed.

Lemma missingSingle_noOpen X : noOpen X -> noOpen (missingSingle X).
Proof.
  intros HX. unfold missingSingle, noOpen. rewrite !Forall_app.
  repeat split; [|done|]; by apply js_noOpen_decide; vm_compute.
Qed.

(** On a well-formed template the two scans put, in place of every
    placeholder, what the specification says. *)
Lemma merged_pieces data language pieces :
  Forall (wellFormed data) pieces ->
  merged (flat_map written pieces) data language =
  inr (flat_map (substituted data language) pieces).
Proof.
  intros Hwf. unfold merged, firstScan, replaceE. cbn [source global].
  rewrite (replaceAllE_double _
             (fun X => substituted data language (Double X))).
  2:{ eapply Forall_impl; [exact Hwf|]. intros [s|X|X]; simpl; try tauto.
      intros (? & ? & Hans & _). split; [done|]. split; [done|].
      by apply replaceDouble_substituted. }
  rewrite (replaceAllE_single _ _
             (fun X => substituted data language (Single X))).
  2:{ eapply Forall_impl; [exact Hwf|]. intros [s|X|X]; simpl; try tauto.
      - intros (_ & [Hopen _] & _ & Hv).
        destruct (resolved data X) as [v|].
        + by apply formatVietnameseText_noOpen.
        + by apply missingDouble_noOpen.
      - intros (? & ? & Hans). split; [done|]. split; [done|].
        by apply replaceSingle_substituted. }
  apply (f_equal inr), flat_map_ext. by intros [s|X|X].
Qed.

(** ** [render] *)

(** On a template that is there, [render] throws what the merge throws,
    and otherwise returns the post-processed text with the placeholders of
    the template and the time of the clock. *)
Lemma render_run (context : ConsultationContext) w template :
  templateAt (templates context) (consultationType context) = Some template ->
  template <> [] ->
  render context w =
  match merged template (consultationData context) (language context) with
  | inl error =>
    (inl error,
     match firstScan template (consultationData context) (language context) with
     | inl _ => (setLastIndex VIETNAMESE_PLACEHOLDER_PATTERN O w).2
     | inr _ => rewound w
     end)
  | inr result =>
    (inr {| content := postProcessVietnameseText result (language context);
            templateUsed := template;
            placeholders := found template;
            metadata :=
              {| Metadata.productId := productId context;
                 Metadata.consultationType := consultationType context;
                 Metadata.renderTime := wallClock w (clockReads w);
                 Metadata.language := language context |} |},
     {| vnLastIndex := O; phLastIndex := O;
        wallClock := wallClock w; clockReads := S (clockReads w) |})
  end.
Proof.
  intros Ht Hne. unfold render. rewrite Ht.
  destruct template as [|c t]; [done|].
  unfold bind. rewrite mergeTemplate_run. unfold merged.
  destruct (firstScan (c :: t) (consultationData context) (language context))
    as [e|first]; [done|].
  destruct (replaceE (source PLACEHOLDER_PATTERN) _ first) as [e|result];
    [done|].
  rewrite extractPlaceholders_run.
  cbn -[scanLoop postProcessVietnameseText length source].
  unfold found.
  by rewrite (scanLoop_rewinds VIETNAMESE_PLACEHOLDER_PATTERN) by lia.
Qed.

(** The only exception of the merge is the [TypeError] of a field that is
    inherited. *)
Lemma replacer_exception data language X e :
  replaceDouble data language X = inl e \/
  replaceSingle data language X = inl e ->
  e = TypeError notAFunction.
Proof.
  unfold replaceDouble, replaceSingle.
  destruct (getProperty data (trim X)) as [[|c v]| |]; cbn;
    intros [H|H]; congruence.
Qed.

(** A template that starts with a double-brace placeholder for a field
    that is inherited makes the merge throw. *)
Lemma merged_inherited X rest data language :
  X <> [] -> noClose X -> ~ answered data X ->
  merged ([LBRACE; LBRACE] ++ X ++ [RBRACE; RBRACE] ++ rest) data language =
  inl (TypeError notAFunction).
Proof.
  intros HX Hc Hans. unfold merged, firstScan, replaceE. cbn [source global].
  change ([LBRACE; LBRACE] ++ ?a) with (LBRACE :: LBRACE :: a).
  rewrite (replaceAllE_cons _ (source_shrinks VIETNAMESE_PLACEHOLDER_PATTERN)).
  change (LBRACE :: LBRACE :: ?a) with ([LBRACE; LBRACE] ++ a).
  rewrite (matchAt_double_field X _ HX Hc). cbn [group nth].
  by destruct (replacer_throws data language X Hans) as [-> _].
Qed.

Lemma merged_exception template data language e :
  merged template data language = inl e -> e = TypeError notAFunction.
Proof.
  unfold merged, firstScan, replaceE. cbn [source global].
  destruct (replaceAllE _ _ template) as [e'|first] eqn:E1.
  - intros [= <-]. apply replaceAllE_inl in E1 as [cap Hcap].
    eapply replacer_exception. left. exact Hcap.
  - intros [cap Hcap]%replaceAllE_inl.
    eapply replacer_exception. right. exact Hcap.
Qed.

Lemma render_throws (context : ConsultationContext) w :
  templateAt (templates context) (consultationType context) = None \/
  templateAt (templates context) (consultationType context) = Some [] ->
  render context w = (inl (Error (notFound (consultationType context))), w).
Proof. unfold render. by intros [-> | ->]. Qed.


(** A field the data own is answered for, and so is every name that is not
    one of [Object.prototype]. *)
Lemma resolved_answered data X v : resolved data X = Some v -> answered data X.
Proof.
  unfold resolved, answered, getProperty.
  by destruct (data !! trim X).
Qed.

Lemma answered_decide data X :
  bool_decide (trim X ∈ objectPrototype) = false -> answered data X.
Proof.
  intros H%bool_decide_eq_false. unfold answered, getProperty.
  destruct (data !! trim X); [done|]. by rewrite (decide_False _ _ H).
Qed.




(** ** Merging: the claims *)

(** C1 (amended).  For every template that reads as text without [{]
    interleaved with placeholders [{{X}}] and [{X}] whose field names are
    non-empty, free of braces and answered for by the data (owned by them,
    or not a name of [Object.prototype]), and every consultation data whose
    values substituted for double-brace placeholders contain no [{], the
    merge returns, and the merged text is the template in which every
    placeholder stands replaced, before post-processing, by its formatted
    value when the data hold a non-empty value under the trimmed field
    name, and otherwise by the marker "[Chưa có thông tin: X]" (double
    brace) or "[Missing: X]" (single brace) with [X] as written between the
    braces; the content returned is the post-processing of that text in the
    language of the call. *)
Theorem mergeTemplate_substitutes pieces data language w :
  Forall (wellFormed data) pieces ->
  (mergeTemplate (flat_map written pieces) data language w).1 =
  inr (postProcessVietnameseText
         (flat_map (substituted data language) pieces) language).
Proof.
  intros Hwf. rewrite mergeTemplate_run. cbn [fst]. by rewrite merged_pieces.
Qed.

(** Discharges the side conditions on a concrete list of pieces. *)
Ltac pieces_ok :=
  repeat (apply Forall_cons; split); try apply Forall_nil;
  repeat split;
  try (apply js_noOpen_decide; vm_compute; reflexivity);
  try (apply js_noClose_decide; vm_compute; reflexivity);
  try (apply answered_decide; vm_compute; reflexivity);
  try (vm_compute; discriminate).

Lemma mergeTemplate_substitutes_witness :
  let pieces := [Text (js "Chào "); Double (js "ten"); Text (js ", dùng ");
                 Single (js "sp"); Text (js "; "); Single (js "ghi_chu");
                 Text (js ".")] in
  let data : gmap (list N) (list N) :=
    {[ js "ten" := js "lan"; js "ghi_chu" := js "xem {muc 2}" ]} in
  Forall (wellFormed data) pieces /\
  (mergeTemplate (flat_map written pieces) data english (freshWorld (fun _ => 0))).1 =
  inr (postProcessVietnameseText
         (flat_map (substituted data english) pieces) english).
Proof.
  intros pieces data.
  assert (Hwf : Forall (wellFormed data) pieces) by pieces_ok.
  split; [exact Hwf | exact (mergeTemplate_substitutes pieces data english _ Hwf)].
Defined.

(** What the witness above evaluates to: the value of a single-brace
    placeholder is not scanned, so its braces stay. *)
Example mergeTemplate_both_styles :
  (mergeTemplate (js "Chào {{ten}}, dùng {sp}; {ghi_chu}.")
     {[ js "ten" := js "lan"; js "ghi_chu" := js "xem {muc 2}" ]}
     english (freshWorld (fun _ => 0))).1 =
  inr (js "Chào Lan, dùng [Missing: sp]; Xem {muc 2}.").
Proof. vm_compute. reflexivity. Qed.

(** A value that is the empty string counts as missing. *)
Example mergeTemplate_empty_value :
  (mergeTemplate (js "{{ten}} {ten}") {[ js "ten" := js "" ]}
     english (freshWorld (fun _ => 0))).1 =
  inr (js "[Chưa có thông tin: ten] [Missing: ten]").
Proof. vm_compute. reflexivity. Qed.

(** A value made of white space only is resolved, and formats to the empty
    text. *)
Example mergeTemplate_blank_value :
  (mergeTemplate (js "a{{x}}b") {[ js "x" := js "   " ]}
     english (freshWorld (fun _ => 0))).1 =
  inr (js "ab").
Proof. vm_compute. reflexivity. Qed.

(** C1 as stated fails: the second scan runs over the text the first scan
    has substituted.  With the template "{{a}}" and the value "see {b}" under
    [a], the placeholder is resolved, yet the content holds neither its
    formatted value "See {b}" nor a marker for [a]: the braces of the value
    have been replaced by a marker for [b]. *)
Lemma mergeTemplate_rescans_value :
  let data : gmap (list N) (list N) := {[ js "a" := js "see {b}" ]} in
  let out := js "See [Missing: b]" in
  resolved data (js "a") = Some (js "see {b}") /\
  formatVietnameseText (js "see {b}") english = js "See {b}" /\
  (mergeTemplate (js "{{a}}") data english (freshWorld (fun _ => 0))).1 =
    inr out /\
  includes out (js "See {b}") = false /\
  includes out (missingDouble (js "a")) = false.
Proof. vm_compute. repeat split. Qed.

(** A field name with a brace is scanned again as well, and Vietnamese
    post-processing normalises white space inside a marker too. *)
Example mergeTemplate_rescans_name :
  (mergeTemplate (js "{{a{b}} c}") ∅ english (freshWorld (fun _ => 0))).1 =
  inr (js "[Chưa có thông tin: a[Missing: b] c]").
Proof. vm_compute. reflexivity. Qed.

Example mergeTemplate_marker_normalised :
  (mergeTemplate (js "{{ ten }}") ∅ vietnamese (freshWorld (fun _ => 0))).1 =
  inr (js "[Chưa có thông tin: ten ]") /\
  (mergeTemplate (js "{{ ten }}") ∅ english (freshWorld (fun _ => 0))).1 =
  inr (missingDouble (js " ten ")).
Proof. vm_compute. split; reflexivity. Qed.

(** A field that the data do not own and that every object inherits gets
    neither its value nor a marker: the merge throws.  A data that own the
    name are read as usual. *)
Example mergeTemplate_inherited_field :
  (mergeTemplate (js "Xem {toString}") ∅ english (freshWorld (fun _ => 0))).1 =
  inl (TypeError notAFunction) /\
  (mergeTemplate (js "{{ constructor }}") {[ js "ten" := js "lan" ]}
     vietnamese (freshWorld (fun _ => 0))).1 =
  inl (TypeError notAFunction) /\
  (mergeTemplate (js "Xem {toString}") {[ js "toString" := js "trang 2" ]}
     english (freshWorld (fun _ => 0))).1 =
  inr (js "Xem Trang 2").
Proof. vm_compute. repeat split. Qed.




(** C5.  Rendering the template "Cách dùng: {{cách_thoa}}." with "thoa đều"
    under "cách_thoa", in Vietnamese mode, gives the content
    "Cách dùng: Thoa đều.": the first letter of the value is capitalised, the
    full stop of the template is kept and is not doubled. *)
Theorem render_usage_example (context : ConsultationContext) w :
  templateAt (templates context) (consultationType context) =
    Some (js "Cách dùng: {{cách_thoa}}.") ->
  consultationData context !! js "cách_thoa" = Some (js "thoa đều") ->
  language context = vietnamese ->
  exists r, (render context w).1 = inr r /\
            content r = js "Cách dùng: Thoa đều.".
Proof.
  intros Ht Hdata Hlang.
  rewrite (render_run _ _ _ Ht) by (vm_compute; discriminate).
  rewrite Hlang.
  change (js "Cách dùng: {{cách_thoa}}.")
    with (flat_map written
            [Text (js "Cách dùng: "); Double (js "cách_thoa"); Text (js ".")]).
  assert (resolved (consultationData context) (js "cách_thoa")
          = Some (js "thoa đều")) as Hres.
  { unfold resolved.
    replace (trim (js "cách_thoa")) with (js "cách_thoa")
      by (vm_compute; reflexivity).
    rewrite Hdata. vm_compute. reflexivity. }
  rewrite merged_pieces.
  - eexists. split; [done|]. cbn [content flat_map substituted].
    rewrite Hres. vm_compute. reflexivity.
  - repeat (apply Forall_cons; split); try apply Forall_nil; cbn [wellFormed];
      rewrite ?Hres; repeat split;
      try (apply js_noOpen_decide; vm_compute; reflexivity);
      try (apply js_noClose_decide; vm_compute; reflexivity);
      try (by eapply resolved_answered);
      try (vm_compute; discriminate).
Qed.

Lemma render_usage_example_witness :
  exists r,
    (render (sampleContext (Some (js "Cách dùng: {{cách_thoa}}."))
               {[ js "cách_thoa" := js "thoa đều" ]} vietnamese)
            (freshWorld (fun _ => 0))).1 = inr r /\
    content r = js "Cách dùng: Thoa đều.".
Proof.
  apply render_usage_example.
  - reflexivity.
  - vm_compute. reflexivity.
  - reflexivity.
Defined.

(** ** Failures of [render] *)

(** C4 fails on the code.  [render] throws the error "Template not found
    for consultation type: " followed by the key exactly when
    [templates[consultationType]] gives no template (none, or the empty
    string, which the guard [!template] takes for none), and
    [generatePreview] always returns a string: the content when [render]
    returns, and "⚠️ Lỗi template: " followed by the message of the error
    when [render] throws.  But [render] does not succeed on every template
    that is there: a placeholder whose field the data do not own is looked
    up in [Object.prototype], and on the template "{{constructor}}", with
    data that have no field of that name, [render] throws the [TypeError]
    "text.trim is not a function" instead of returning the marker; that
    [TypeError] is the only other exception of [render]. *)
Theorem render_not_found_or_inherited (context : ConsultationContext) w :
  let template := templateAt (templates context) (consultationType context) in
  ((render context w).1 =
     inl (Error (js "Template not found for consultation type: "
                   ++ keyName (consultationType context))) <->
   (template = None \/ template = Some [])) /\
  (forall e, (render context w).1 = inl e ->
     (e = Error (js "Template not found for consultation type: "
                   ++ keyName (consultationType context)) \/
      e = TypeError notAFunction) /\
     (generatePreview context w).1 = js "⚠️ Lỗi template: " ++ message e) /\
  (forall r, (render context w).1 = inr r ->
     (generatePreview context w).1 = content r) /\
  (template = Some (js "{{constructor}}") ->
   consultationData context !! js "constructor" = None ->
   (render context w).1 = inl (TypeError notAFunction) /\
   (generatePreview context w).1 = js "⚠️ Lỗi template: " ++ notAFunction).
Proof.
  intros template.
  assert (template = Some (js "{{constructor}}") ->
          consultationData context !! js "constructor" = None ->
          (render context w).1 = inl (TypeError notAFunction)) as Hfail.
  { intros Ht Hdata. subst template.
    rewrite (render_run _ _ _ Ht) by (vm_compute; discriminate).
    replace (js "{{constructor}}")
      with ([LBRACE; LBRACE] ++ js "constructor" ++ [RBRACE; RBRACE] ++ [])
      by (vm_compute; reflexivity).
    rewrite merged_inherited; [done| | |].
    - vm_compute. discriminate.
    - apply js_noClose_decide. vm_compute. reflexivity.
    - unfold answered, getProperty.
      replace (trim (js "constructor")) with (js "constructor")
        by (vm_compute; reflexivity).
      rewrite Hdata. intros H. apply H. vm_compute. reflexivity. }
  assert (forall e, (render context w).1 = inl e ->
            e = Error (js "Template not found for consultation type: "
                         ++ keyName (consultationType context)) /\
            (template = None \/ template = Some []) \/
            e = TypeError notAFunction /\
            ~ (template = None \/ template = Some [])) as Hthrown.
  { intros e. destruct template as [[|c t]|] eqn:Ht; subst template.
    - rewrite render_throws by auto. intros [= <-]. left. auto.
    - rewrite (render_run _ _ _ Ht) by done.
      destruct (merged (c :: t) (consultationData context) (language context))
        as [e'|text] eqn:E; [|done].
      intros [= <-]. right. split; [by eapply merged_exception|].
      by intros [?|?].
    - rewrite render_throws by auto. intros [= <-]. left. auto. }
  split; [|split; [|split]].
  - split.
    + intros He. by destruct (Hthrown _ He) as [[_ ?]|[? _]].
    + intros Hnone. by rewrite render_throws.
  - intros e He. split.
    + destruct (Hthrown _ He) as [[? _]|[? _]]; auto.
    + unfold generatePreview, bind.
      destruct (render context w) as [[e'|r] w']; cbn [fst] in He; [|done].
      by injection He as ->.
  - intros r Hr. unfold generatePreview, bind.
    destruct (render context w) as [[e'|r'] w']; cbn [fst] in Hr; [done|].
    by injection Hr as ->.
  - intros Ht Hdata. specialize (Hfail Ht Hdata). split; [done|].
    unfold generatePreview, bind.
    destruct (render context w) as [[e'|r'] w']; cbn [fst] in Hfail; [|done].
    by injection Hfail as ->.
Qed.

Lemma render_not_found_or_inherited_witness :
  (render (sampleContext (Some (js "{{constructor}}")) ∅ vietnamese)
     (freshWorld (fun _ => 0))).1 = inl (TypeError notAFunction) /\
  (generatePreview (sampleContext (Some (js "{{constructor}}")) ∅ vietnamese)
     (freshWorld (fun _ => 0))).1 = js "⚠️ Lỗi template: " ++ notAFunction.
Proof.
  apply (render_not_found_or_inherited
           (sampleContext (Some (js "{{constructor}}")) ∅ vietnamese)
           (freshWorld (fun _ => 0))).
  - reflexivity.
  - reflexivity.
Defined.

(** C10.  A template that is present but is the empty string makes [render]
    throw the error it throws when the key is absent. *)
Theorem render_empty_template (context : ConsultationContext) w :
  templateAt (templates context) (consultationType context) = Some [] ->
  (render context w).1 =
    inl (Error (js "Template not found for consultation type: "
                  ++ keyName (consultationType context))) /\
  forall (absent : ConsultationContext) w',
    consultationType absent = consultationType context ->
    templateAt (templates absent) (consultationType absent) = None ->
    (render absent w').1 = (render context w).1.
Proof.
  intros Ht. rewrite render_throws by auto. split; [done|].
  intros absent w' Hty Hnone. rewrite render_throws by auto. by rewrite Hty.
Qed.

Lemma render_empty_template_witness :
  (render (sampleContext (Some []) ∅ vietnamese) (freshWorld (fun _ => 0))).1 =
    inl (Error (js "Template not found for consultation type: "
                  ++ keyName UsageGuide)) /\
  forall (absent : ConsultationContext) w',
    consultationType absent = UsageGuide ->
    templateAt (templates absent) (consultationType absent) = None ->
    (render absent w').1 =
    (render (sampleContext (Some []) ∅ vietnamese) (freshWorld (fun _ => 0))).1.
Proof.
  apply (render_empty_template (sampleContext (Some []) ∅ vietnamese)).
  reflexivity.
Defined.

(** ** Placeholders and validation *)

(** C3 fails on the code.  The list of placeholders never holds a name
    twice ([extractPlaceholders_NoDup]), but it holds more than the field
    names of the template: the single-brace pattern is run over the template
    itself, where it also matches inside every double-brace placeholder,
    from the first [{] to the first [}].  For the template "{{ten}}" the
    placeholders of every result of [render] are "ten" and "{ten", and
    [render] returns such a result whenever the data have no value under
    "ten", or one without [{]. *)
Theorem render_placeholders_double_brace (context : ConsultationContext) w :
  templateAt (templates context) (consultationType context) = Some (js "{{ten}}") ->
  (forall r, (render context w).1 = inr r ->
             placeholders r = [js "ten"; js "{ten"]) /\
  (match resolved (consultationData context) (js "ten") with
   | Some v => noOpen v
   | None => True
   end ->
   exists r, (render context w).1 = inr r /\
             placeholders r = [js "ten"; js "{ten"]).
Proof.
  intros Ht. rewrite (render_run _ _ _ Ht) by (vm_compute; discriminate).
  assert (found (js "{{ten}}") = [js "ten"; js "{ten"]) as Hfound
    by (vm_compute; reflexivity).
  split.
  - destruct (merged _ _ _) as [e|text]; [done|].
    intros r [= <-]. exact Hfound.
  - intros Hv.
    change (js "{{ten}}") with (flat_map written [Double (js "ten")]) at 1.
    rewrite merged_pieces.
    + eexists. split; [done|]. exact Hfound.
    + apply Forall_cons. split; [|by apply Forall_nil]. cbn [wellFormed].
      split; [vm_compute; discriminate|].
      split; [split; [by apply js_noOpen_decide; vm_compute
                     | by apply js_noClose_decide; vm_compute]|].
      split; [by apply answered_decide; vm_compute | done].
Qed.

Lemma render_placeholders_double_brace_witness :
  exists r,
    (render (sampleContext (Some (js "{{ten}}")) ∅ vietnamese)
            (freshWorld (fun _ => 0))).1 = inr r /\
    placeholders r = [js "ten"; js "{ten"].
Proof.
  apply (proj2 (render_placeholders_double_brace
                  (sampleContext (Some (js "{{ten}}")) ∅ vietnamese)
                  (freshWorld (fun _ => 0)) eq_refl)).
  vm_compute. exact I.
Defined.

Lemma trimStart_nil s : trimStart s = [] <-> Forall (fun c => isWhiteSpace c = true) s.
Proof.
  induction s as [|c s IH]; simpl; [by split; constructor|].
  destruct (isWhiteSpace c) eqn:E.
  - rewrite IH. split; [by constructor | by intros [_ ?]%Forall_cons].
  - split; [done|]. intros [? _]%Forall_cons. congruence.
Qed.

Lemma trimStart_white s :
  Forall (fun c => isWhiteSpace c = true) (trimStart s) <->
  Forall (fun c => isWhiteSpace c = true) s.
Proof.
  induction s as [|c s IH]; simpl; [done|].
  destruct (isWhiteSpace c) eqn:E; [|done].
  rewrite IH. split; [by constructor | by intros [_ ?]%Forall_cons].
Qed.

(** [trim] leaves nothing exactly of the strings made of white space. *)
Lemma trim_nil s : trim s = [] <-> Forall (fun c => isWhiteSpace c = true) s.
Proof.
  unfold trim, trimEnd.
  rewrite <- trimStart_white, <- (Forall_reverse _ (trimStart s)), <- trimStart_nil.
  split; [|by intros ->].
  intros H. by rewrite <- (reverse_involutive (trimStart _)), H.
Qed.

Lemma warnings_filter (availableFields : list jsstring) placeholders :
  flat_map (fun placeholder =>
              if decide (placeholder ∈ availableFields) then []
              else [fieldWarning placeholder]) placeholders =
  fieldWarning <$> filter (fun placeholder => placeholder ∉ availableFields) placeholders.
Proof.
  induction placeholders as [|x l IH]; [done|]. cbn [flat_map].
  rewrite filter_cons, IH. by repeat case_decide.
Qed.

(** C6.  [validateTemplate] answers [isValid = true] exactly when it has
    found no error; the errors are the brace error when the template holds
    different numbers of [{] and [}], and the empty-template error when the
    template is empty or made of white space; the warnings are one per
    extracted placeholder name that is not among the available fields, and
    which fields are available changes neither the errors nor [isValid]. *)
Theorem validateTemplate_checks template availableFields w :
  let v := (validateTemplate template availableFields w).1 in
  (Validation.isValid v = true <-> Validation.errors v = []) /\
  Validation.errors v =
    (if decide (countChar LBRACE template = countChar RBRACE template)
     then [] else [braceError]) ++
    (if decide (Forall (fun c => isWhiteSpace c = true) template)
     then [emptyError] else []) /\
  (countChar LBRACE template <> countChar RBRACE template ->
   braceError ∈ Validation.errors v) /\
  (Forall (fun c => isWhiteSpace c = true) template ->
   emptyError ∈ Validation.errors v) /\
  Validation.placeholders v = (extractPlaceholders template w).1 /\
  NoDup (Validation.placeholders v) /\
  Validation.warnings v =
    fieldWarning <$> filter (fun placeholder => placeholder ∉ availableFields)
                            (Validation.placeholders v) /\
  (forall otherFields,
     let v' := (validateTemplate template otherFields w).1 in
     Validation.isValid v' = Validation.isValid v /\
     Validation.errors v' = Validation.errors v).
Proof.
  unfold validateTemplate, bind.
  destruct (extractPlaceholders template w) as [found w'] eqn:E.
  pose proof (extractPlaceholders_NoDup template w) as Hnodup.
  rewrite E in Hnodup. cbn [fst] in *. cbn [ret fst Validation.isValid
    Validation.errors Validation.warnings Validation.placeholders].
  assert (match trim template with
          | [] => (if decide (countChar LBRACE template = countChar RBRACE template)
                   then [] else [braceError]) ++ [emptyError]
          | _ :: _ => if decide (countChar LBRACE template = countChar RBRACE template)
                      then [] else [braceError]
          end =
          (if decide (countChar LBRACE template = countChar RBRACE template)
           then [] else [braceError]) ++
          (if decide (Forall (fun c => isWhiteSpace c = true) template)
           then [emptyError] else [])) as ->.
  { destruct (trim template) as [|c t] eqn:Ht.
    - apply trim_nil in Ht. by rewrite (decide_True _ _ Ht).
    - assert (~ Forall (fun c => isWhiteSpace c = true) template) as Hw
        by (intros Hw%trim_nil; congruence).
      by rewrite (decide_False _ _ Hw), app_nil_r. }
  split.
  { rewrite bool_decide_eq_true. split; [by intros ?%nil_length_inv|by intros ->]. }
  split; [done|]. split.
  { intros Hne. rewrite (decide_False _ _ Hne). set_solver. }
  split.
  { intros Hw. rewrite (decide_True _ _ Hw). set_solver. }
  split; [done|]. split; [done|]. split; [apply warnings_filter|done].
Qed.

(** The template with unmatched braces of the specification is invalid. *)
Example validateTemplate_unmatched clock :
  let v := (validateTemplate (js "{{ten} ") [] (freshWorld clock)).1 in
  Validation.isValid v = false /\ Validation.errors v = [braceError].
Proof. vm_compute. split; reflexivity. Qed.

(** [validateTemplate] too leaves both patterns rewound. *)
Lemma validateTemplate_rewinds template availableFields w :
  (validateTemplate template availableFields w).2 = rewound w.
Proof.
  unfold validateTemplate, bind.
  pose proof (extractPlaceholders_rewinds template w) as H.
  by destruct (extractPlaceholders template w) as [seen w'].
Qed.

(** C7 fails on the code: for "Xin chào {{ten}}" and no available field,
    in any world where the patterns are rewound (as every operation leaves
    them), the result is valid and has no error, but it carries two
    warnings, one for "ten" and one for "{ten", the name the single-brace
    pattern finds inside the double-brace placeholder. *)
Theorem validateTemplate_greeting w :
  let v := (validateTemplate (js "Xin chào {{ten}}") [] (rewound w)).1 in
  Validation.isValid v = true /\
  Validation.errors v = [] /\
  Validation.placeholders v = [js "ten"; js "{ten"] /\
  Validation.warnings v = [fieldWarning (js "ten"); fieldWarning (js "{ten")] /\
  length (Validation.warnings v) = 2%nat.
Proof. vm_compute. repeat split. Qed.

(** ** Per-value formatting *)

Lemma trimStart_head s c t : trimStart s = c :: t -> isWhiteSpace c = false.
Proof.
  induction s as [|b s IH]; simpl; [done|].
  destruct (isWhiteSpace b) eqn:E; [done|]. by intros [= <- _].
Qed.

Lemma trimStart_snoc l c :
  isWhiteSpace c = false -> exists l', trimStart (l ++ [c]) = l' ++ [c].
Proof.
  intros Hc. induction l as [|b l [l' IH]]; simpl.
  - rewrite Hc. by exists [].
  - destruct (isWhiteSpace b); [by exists l'|]. by exists (b :: l).
Qed.

(** [trim] leaves a first character that is not white space. *)
Lemma trim_head s c t : trim s = c :: t -> isWhiteSpace c = false.
Proof.
  unfold trim, trimEnd. destruct (trimStart s) as [|b u] eqn:E; [done|].
  pose proof (trimStart_head _ _ _ E) as Hb.
  rewrite reverse_cons.
  destruct (trimStart_snoc (reverse u) b Hb) as [l' ->].
  rewrite reverse_app. simpl. by intros [= <- _].
Qed.

Lemma reSpaces_shrinks s m rem :
  matchAt reSpaces s = Some (m, rem) -> (length rem < length s)%nat.
Proof. by apply matchAt_shrinks. Qed.

Lemma reSpacePunct_shrinks s m rem :
  matchAt reSpacePunct s = Some (m, rem) -> (length rem < length s)%nat.
Proof. by apply matchAt_shrinks. Qed.

Lemma reSentenceStart_shrinks s m rem :
  matchAt reSentenceStart s = Some (m, rem) -> (length rem < length s)%nat.
Proof. by apply matchAt_shrinks. Qed.

Lemma replace_reSpaces_head f c s :
  isWhiteSpace c = false ->
  replace reSpaces f (c :: s) = c :: replace reSpaces f s.
Proof.
  intros Hc. unfold replace. cbn [global reSpaces].
  rewrite (replaceAll_cons _ reSpaces_shrinks).
  unfold matchAt at 1. cbn [nodes reSpaces matchNodes atomOf alternatives].
  by rewrite Hc.
Qed.

Lemma replace_reSentenceEnd_head c s :
  exists s', replace reSentenceEnd (fun m => group 1 m) (c :: s) = c :: s'.
Proof.
  unfold replace, firstMatch. cbn [global anchored reSentenceEnd search].
  unfold matchAt at 1. cbn [nodes reSentenceEnd].
  rewrite (matchNodes_one _ isTerminal) by done.
  destruct (isTerminal c).
  - destruct (matchNodes _ s) as [[[matched groups] rest]|].
    + by exists rest.
    + destruct (search _ s) as [[[k m] rem]|]; simpl; eauto.
  - destruct (search _ s) as [[[k m] rem]|]; simpl; eauto.
Qed.

Lemma replace_reInitial c s :
  replace reInitial (fun m => toUpperCase (group 0 m)) (c :: s) =
  (if isLowerAZ c then c - 32 else c) :: s.
Proof.
  unfold replace, firstMatch. cbn [global anchored reInitial].
  unfold matchAt. cbn [nodes reInitial].
  rewrite (matchNodes_one _ isLowerAZ) by done.
  destruct (isLowerAZ c) eqn:E; [|done].
  cbn [matchNodes group nth toUpperCase map take app]. by rewrite E.
Qed.

(** The capital goes to a first letter in [a-z] and to no other: the
    formatted value starts with the first character of the trimmed value,
    in upper case when it is one of [a-z] and as it is otherwise. *)
Lemma formatVietnameseText_first text language c t :
  trim text = c :: t ->
  exists t',
    formatVietnameseText text language =
    (if isLowerAZ c then c - 32 else c) :: t'.
Proof.
  intros Ht. pose proof (trim_head _ _ _ Ht) as Hc.
  unfold formatVietnameseText. destruct text as [|b text]; [done|].
  assert (exists t',
            replace reInitial (fun m => toUpperCase (group 0 m))
              (replace reSentenceEnd (fun m => group 1 m)
                 (replace reSpaces (fun _ => [SPACE]) (trim (b :: text)))) =
            (if isLowerAZ c then c - 32 else c) :: t') as [t' Ht'];
    [|by destruct language; exists t'].
  rewrite Ht, (replace_reSpaces_head _ _ _ Hc).
  destruct (replace_reSentenceEnd_head c (replace reSpaces (fun _ => [SPACE]) t))
    as [s' ->].
  rewrite replace_reInitial. by exists s'.
Qed.

(** C9 fails on the code: only a first letter in [a-z] is capitalised.  A
    value that starts with an accented or barred lower-case letter, such as
    "đều", keeps it in either language, while "  thoa   đều.  " is trimmed,
    has its white space collapsed, keeps its one full stop and gets its
    capital. *)
Theorem formatVietnameseText_initial :
  formatVietnameseText (js "đều") vietnamese = js "đều" /\
  formatVietnameseText (js "đều") english = js "đều" /\
  formatVietnameseText (js "ăn sau bữa tối") vietnamese = js "ăn sau bữa tối" /\
  formatVietnameseText (js "  thoa   đều.  ") vietnamese = js "Thoa đều.".
Proof. vm_compute. repeat split. Qed.

(** ** [renderAll] *)

Lemma keyName_inj a b : keyName a = keyName b -> a = b.
Proof.
  destruct a, b; intros H; try reflexivity; vm_compute in H; discriminate H.
Qed.

Lemma renderOne_run base type results w :
  exists entry w',
    renderOne base type results w = (<[keyName type := entry]> results, w') /\
    entryOf base type entry.
Proof.
  unfold renderOne, bind.
  destruct (templateAt (templates base) type) as [[|c t]|] eqn:Ht.
  1,3: rewrite render_throws by (cbn; auto); cbn [newDate ret];
       do 2 eexists; (split; [reflexivity|]); intros w0;
       rewrite render_throws by (cbn; auto); cbn [fst failedEntry content
         templateUsed placeholders metadata Metadata.productId
         Metadata.consultationType Metadata.language message];
       repeat split;
       assert (exists c t, js "Lỗi tạo nội dung tư vấn: " = c :: t)
         as (c0 & t0 & ->) by (vm_compute; eauto); discriminate.
  rewrite (render_run {| baseContext := base; consultationType := type |} w (c :: t))
    by done.
  destruct (merged (c :: t)
              (consultationData {| baseContext := base; consultationType := type |})
              (language {| baseContext := base; consultationType := type |}))
    as [e|text] eqn:E.
  - cbn [newDate ret]. do 2 eexists. split; [reflexivity|]. intros w0.
    rewrite (render_run {| baseContext := base; consultationType := type |} w0 (c :: t))
      by done.
    rewrite E. cbn [fst failedEntry content templateUsed placeholders metadata
      Metadata.productId Metadata.consultationType Metadata.language].
    repeat split.
    assert (exists c t, js "Lỗi tạo nội dung tư vấn: " = c :: t)
      as (c0 & t0 & ->) by (vm_compute; eauto).
    discriminate.
  - do 2 eexists. split; [reflexivity|]. intros w0.
    rewrite (render_run {| baseContext := base; consultationType := type |} w0 (c :: t))
      by done.
    rewrite E. cbn [fst]. repeat split.
Qed.

Lemma forEachType_entries base types :
  forall results0 w,
    let results := (forEachType base types results0 w).1 in
    (forall key, (forall type, type ∈ types -> key <> keyName type) ->
                 results !! key = results0 !! key) /\
    (forall type, type ∈ types ->
       exists entry, results !! keyName type = Some entry /\ entryOf base type entry).
Proof.
  induction types as [|type rest IH]; intros results0 w; cbn [forEachType].
  - split; [done|]. by intros type ?%elem_of_nil.
  - unfold bind.
    destruct (renderOne_run base type results0 w) as (entry & w1 & -> & Hentry).
    destruct (IH (<[keyName type := entry]> results0) w1) as [Hother Hin].
    split.
    + intros key Hkey. rewrite Hother.
      * apply lookup_insert_ne. apply not_eq_sym, Hkey. by left.
      * intros type' Hin'. apply Hkey. by right.
    + intros type' [->|Hin']%elem_of_cons; [|by apply Hin].
      destruct (decide (type ∈ rest)) as [Hlater|Hlast]; [by apply Hin|].
      exists entry. split; [|done]. rewrite Hother.
      * apply lookup_insert_eq.
      * intros type' Hin' Heq%keyName_inj. by subst.
Qed.

(** C8.  [renderAll] returns a map whose keys are exactly the keys of the
    supplied types, distinct for distinct types.  The entry of every
    supplied type is what [render] gives for that type: when [render]
    returns, its result (render time apart); when [render] throws, an entry
    whose content is the non-empty text "Lỗi tạo nội dung tư vấn: " followed
    by the message of the error, with an empty template and no placeholder.
    This holds for every supplied type, whatever the other types do. *)
Theorem renderAll_entries base types w :
  let results := (renderAll base types w).1 in
  (forall key, is_Some (results !! key) <->
               exists type, type ∈ types /\ key = keyName type) /\
  (forall a b, keyName a = keyName b -> a = b) /\
  (forall type, type ∈ types ->
     exists entry, results !! keyName type = Some entry /\ entryOf base type entry).
Proof.
  unfold renderAll.
  destruct (forEachType_entries base types ∅ w) as [Hother Hin].
  split; [|split; [apply keyName_inj | done]].
  intros key. split.
  - intros Hsome. destruct (decide (key ∈ keyName <$> types)) as [Hk|Hk].
    + apply list_elem_of_fmap in Hk as (type & -> & ?). eauto.
    + rewrite Hother in Hsome; [by apply is_Some_None in Hsome|].
      intros type Hty ->. apply Hk, list_elem_of_fmap. eauto.
  - intros (type & Hty & ->). destruct (Hin _ Hty) as (entry & -> & _). eauto.
Qed.

(** One missing template among three: three entries, the missing one an
    error text, the others rendered. *)
Example renderAll_one_missing :
  let base :=
    {| productId := js "p1"; productName := js "Kem";
       categoryName := None; industryName := None; customerName := None;
       customerContext := None;
       consultationData := {[ js "a" := js "x" ]};
       templates :=
         {| usage_guide_template := Some (js "U {{a}}");
            safety_template := None;
            recipe_template := Some (js "R {{a}}");
            technical_template := None; benefits_template := None;
            care_template := None; storage_template := None;
            health_benefits_template := None; skin_benefits_template := None;
            care_instructions_template := None;
            troubleshooting_template := None;
            compatibility_template := None |};
       language := vietnamese |} in
  let results := (renderAll base [UsageGuide; Safety; Recipe]
                    (freshWorld (fun _ => 0))).1 in
  size results = 3%nat /\
  content <$> results !! js "usage_guide_template" = Some (js "U X") /\
  content <$> results !! js "safety_template" =
    Some (js "Lỗi tạo nội dung tư vấn: Template not found for consultation type: safety_template") /\
  content <$> results !! js "recipe_template" = Some (js "R X").
Proof. vm_compute. repeat split. Qed.

(** * Further properties *)

(** ** White space *)

Lemma trimStart_fix s :
  match s with [] => True | c :: _ => isWhiteSpace c = false end ->
  trimStart s = s.
Proof. destruct s as [|c s]; [done|]. simpl. by intros ->. Qed.

Lemma trimStart_trimStart s : trimStart (trimStart s) = trimStart s.
Proof.
  apply trimStart_fix. destruct (trimStart s) as [|c t] eqn:E; [done|].
  by apply trimStart_head in E.
Qed.

Lemma trimEnd_trimEnd s : trimEnd (trimEnd s) = trimEnd s.
Proof. unfold trimEnd. by rewrite reverse_involutive, trimStart_trimStart. Qed.

Lemma trim_trim s : trim (trim s) = trim s.
Proof.
  unfold trim at 1. rewrite (trimStart_fix (trim s)).
  - unfold trim. apply trimEnd_trimEnd.
  - destruct (trim s) as [|c t] eqn:E; [done|]. by apply trim_head in E.
Qed.

(** What [trim] leaves unchanged: the empty text, and the texts whose first
    and last characters are no white space. *)
Lemma trim_fix s :
  match s with [] => True | c :: _ => isWhiteSpace c = false end ->
  match last s with Some c => isWhiteSpace c = false | None => True end ->
  trim s = s.
Proof.
  intros Hh Hl. unfold trim, trimEnd. rewrite (trimStart_fix s Hh).
  rewrite (trimStart_fix (reverse s)); [apply reverse_involutive|].
  destruct (reverse s) as [|c t] eqn:E; [done|].
  assert (last s = Some c) as Hc.
  { rewrite <- (reverse_involutive s), E, reverse_cons. apply last_snoc. }
  by rewrite Hc in Hl.
Qed.

Lemma trim_last s c : last (trim s) = Some c -> isWhiteSpace c = false.
Proof.
  unfold trim, trimEnd. rewrite last_reverse.
  destruct (trimStart (reverse (trimStart s))) as [|b t] eqn:E; [done|].
  intros [= <-]. by apply trimStart_head in E.
Qed.

Lemma trimStart_suffix s : exists ws, s = ws ++ trimStart s.
Proof.
  induction s as [|c s [ws IH]]; [by exists []|]. simpl.
  destruct (isWhiteSpace c); [|by exists []].
  exists (c :: ws). simpl. by f_equal.
Qed.

Lemma trim_infix s : exists pre post, s = pre ++ trim s ++ post.
Proof.
  unfold trim, trimEnd.
  destruct (trimStart_suffix s) as [pre Hpre].
  destruct (trimStart_suffix (reverse (trimStart s))) as [post Hpost].
  exists pre, (reverse post). rewrite <- reverse_app, <- Hpost.
  by rewrite reverse_involutive.
Qed.





(** ** Collapsing white space *)

Lemma span_exists (cls : N -> bool) s :
  exists x r, s = x ++ r /\ Forall (fun c => cls c = true) x /\
              match r with [] => True | d :: _ => cls d = false end.
Proof.
  induction s as [|c s (x & r & -> & Hx & Hr)]; [by exists [], []|].
  destruct (cls c) eqn:E.
  - exists (c :: x), r. repeat split; [by constructor | done].
  - exists [], (c :: x ++ r). by repeat split.
Qed.

(** At a white-space character /\s+/ takes the whole run. *)
Lemma matchAt_reSpaces_run c s :
  isWhiteSpace c = true ->
  exists x r, s = x ++ r /\ Forall (fun c => isWhiteSpace c = true) x /\
              match r with [] => True | d :: _ => isWhiteSpace d = false end /\
              matchAt reSpaces (c :: s) = Some ([c :: x], r).
Proof.
  intros Hc. destruct (span_exists isWhiteSpace s) as (x & r & -> & Hx & Hr).
  exists x, r. repeat split; try done.
  unfold matchAt. cbn [nodes reSpaces].
  rewrite (matchNodes_plus _ isWhiteSpace [] c x r [] [] r); try done.
  by rewrite app_nil_r.
Qed.

Lemma replace_reSpaces_run f c s :
  isWhiteSpace c = true ->
  exists x r, s = x ++ r /\ Forall (fun c => isWhiteSpace c = true) x /\
              match r with [] => True | d :: _ => isWhiteSpace d = false end /\
              replace reSpaces f (c :: s) = f [c :: x] ++ replace reSpaces f r.
Proof.
  intros Hc. destruct (matchAt_reSpaces_run c s Hc) as (x & r & Hs & Hx & Hr & Hm).
  exists x, r. repeat split; try done.
  unfold replace. cbn [global reSpaces].
  by rewrite (replaceAll_cons _ reSpaces_shrinks), Hm.
Qed.

(** After the collapse every white-space character is a space and is
    followed by none. *)
Lemma collapse_singleSpaces s :
  singleSpaces (replace reSpaces (fun _ => [SPACE]) s) = true.
Proof.
  remember (length s) as n eqn:Hn. revert s Hn.
  induction n as [n IH] using lt_wf_ind. intros s ->.
  destruct s as [|c s]; [done|].
  destruct (isWhiteSpace c) eqn:Hc.
  - destruct (replace_reSpaces_run (fun _ => [SPACE]) c s Hc)
      as (x & r & -> & Hx & Hr & ->).
    cbn [app singleSpaces].
    rewrite (IH (length r)); [|simpl; rewrite length_app; lia|done].
    destruct r as [|d r]; [done|].
    rewrite (replace_reSpaces_head _ _ _ Hr). by rewrite Hr.
  - rewrite (replace_reSpaces_head _ _ _ Hc). cbn [singleSpaces]. rewrite Hc.
    apply (IH (length s)); [simpl; lia | done].
Qed.

(** A text that does not end with white space keeps its last character. *)
Lemma collapse_last s :
  match last s with Some c => isWhiteSpace c = false | None => True end ->
  last (replace reSpaces (fun _ => [SPACE]) s) = last s.
Proof.
  remember (length s) as n eqn:Hn. revert s Hn.
  induction n as [n IH] using lt_wf_ind. intros s -> Hl.
  destruct s as [|c s]; [done|].
  destruct (isWhiteSpace c) eqn:Hc.
  - destruct (replace_reSpaces_run (fun _ => [SPACE]) c s Hc)
      as (x & r & -> & Hx & Hr & ->).
    destruct r as [|d r].
    + exfalso. rewrite app_nil_r in Hl.
      assert (is_Some (last (c :: x))) as [b Hb] by by apply last_is_Some.
      rewrite Hb in Hl.
      assert (b ∈ c :: x) as Hin by by apply last_Some_elem_of.
      assert (Forall (fun c => isWhiteSpace c = true) (c :: x)) as Hall
        by by constructor.
      rewrite Forall_forall in Hall. specialize (Hall _ Hin). congruence.
    + assert (last (c :: x ++ d :: r) = last (d :: r)) as Hsame
        by apply (last_app_cons (c :: x)).
      rewrite Hsame in *. cbn [app].
      assert (length (d :: r) < length (c :: x ++ d :: r))%nat as Hlt
        by (simpl; rewrite length_app; simpl; lia).
      pose proof (IH _ Hlt (d :: r) eq_refl Hl) as IHr.
      rewrite (replace_reSpaces_head _ _ _ Hr) in *.
      by rewrite last_cons_cons.
  - rewrite (replace_reSpaces_head _ _ _ Hc).
    destruct s as [|d s]; [done|].
    rewrite last_cons_cons in *.
    assert (length (d :: s) < length (c :: d :: s))%nat as Hlt by (simpl; lia).
    pose proof (IH _ Hlt (d :: s) eq_refl Hl) as IHs.
    destruct (replace reSpaces (fun _ => [SPACE]) (d :: s)) as [|b t] eqn:E.
    + exfalso. destruct (isWhiteSpace d) eqn:Hd.
      * destruct (replace_reSpaces_run (fun _ => [SPACE]) d s Hd)
          as (x & r & _ & _ & _ & Hrun). by rewrite Hrun in E.
      * by rewrite (replace_reSpaces_head _ _ _ Hd) in E.
    + by rewrite last_cons_cons.
Qed.

(** The collapse changes nothing in a text of single spaces. *)
Lemma collapse_fix s :
  singleSpaces s = true -> replace reSpaces (fun _ => [SPACE]) s = s.
Proof.
  induction s as [|c s IH]; [done|]. cbn [singleSpaces].
  intros [Hc Hs]%andb_true_iff. destruct (isWhiteSpace c) eqn:Hw.
  - apply andb_true_iff in Hc as [->%N.eqb_eq Hn].
    destruct (replace_reSpaces_run (fun _ => [SPACE]) SPACE s Hw)
      as (x & r & Hxr & Hx & Hr & ->).
    destruct x as [|b x].
    + simpl in Hxr. subst r. cbn [app]. f_equal. by apply IH.
    + exfalso. subst s. apply Forall_cons in Hx as [Hb _]. simpl in Hn.
      by rewrite Hb in Hn.
  - rewrite (replace_reSpaces_head _ _ _ Hw). f_equal. by apply IH.
Qed.

(** ** The steps of [formatVietnameseText] *)

Lemma runs_all cls s x r :
  (x, r) ∈ runs cls s -> Forall (fun c => cls c = true) x.
Proof.
  revert x r. induction s as [|c s IH]; intros x r; simpl.
  - by intros [= -> ->]%list_elem_of_singleton.
  - destruct (cls c) eqn:E.
    + intros [Hin|[= -> ->]%list_elem_of_singleton]%elem_of_app; [|done].
      apply list_elem_of_fmap in Hin as ([x' r'] & [= -> ->] & Hin).
      constructor; [done | by eapply IH].
    + by intros [= -> ->]%list_elem_of_singleton.
Qed.

(** A match of /([.!?])\s*$/ is a terminal mark and the white space that
    ends the text. *)
Lemma matchAt_reSentenceEnd_spec s m rem :
  matchAt reSentenceEnd s = Some (m, rem) ->
  exists c x, s = c :: x /\ Forall (fun c => isWhiteSpace c = true) x /\
              rem = [] /\ group 1 m = [c].
Proof.
  unfold matchAt. cbn [nodes reSentenceEnd].
  destruct (matchNodes _ s) as [[[matched groups] rest]|] eqn:E; [|done].
  intros [= <- <-].
  apply matchNodes_cons in E as (x1 & r1 & m1 & g1 & Hin1 & E & -> & ->).
  apply matchNodes_cons in E as (x2 & r2 & m2 & g2 & Hin2 & E & -> & ->).
  apply matchNodes_cons in E as (x3 & r3 & m3 & g3 & Hin3 & E & -> & ->).
  injection E as <- <- <-.
  cbn [atomOf alternatives] in Hin1, Hin2, Hin3.
  destruct s as [|c s]; [by apply elem_of_nil in Hin1|].
  destruct (isTerminal c); [|by apply elem_of_nil in Hin1].
  apply list_elem_of_singleton in Hin1 as [= -> ->].
  destruct r2; [|by apply elem_of_nil in Hin3].
  apply list_elem_of_singleton in Hin3 as [= -> ->].
  pose proof (runs_all _ _ _ _ Hin2) as Hws.
  apply runs_split in Hin2 as ->. rewrite app_nil_r.
  by exists c, x2.
Qed.

Lemma search_at {C} (m : jsstring -> option (C * jsstring)) s k cap rem :
  search m s = Some (k, cap, rem) ->
  m (drop k s) = Some (cap, rem) /\ (k <= length s)%nat.
Proof.
  revert k. induction s as [|c s IH]; intros k; simpl.
  - destruct (m []) as [[cap' rem']|] eqn:E; [|done].
    by intros [= <- <- <-].
  - destruct (m (c :: s)) as [[cap' rem']|] eqn:E.
    + intros [= <- <- <-]. split; [done | lia].
    + destruct (search m s) as [[[k' cap'] rem']|]; [|done].
      intros [= <- <- <-]. destruct (IH _ eq_refl) as [? ?].
      split; [done | lia].
Qed.

(** On a text that does not end with white space the replacement of
    /([.!?])\s*$/ by its mark changes nothing. *)
Lemma sentenceEnd_fix s :
  match last s with Some c => isWhiteSpace c = false | None => True end ->
  replace reSentenceEnd (fun m => group 1 m) s = s.
Proof.
  intros Hl. unfold replace, firstMatch. cbn [global anchored reSentenceEnd].
  destruct (search _ s) as [[[k m] rem]|] eqn:E; [|done].
  apply search_at in E as [E Hk].
  apply matchAt_reSentenceEnd_spec in E as (c & x & Hd & Hx & -> & ->).
  destruct x as [|b x].
  - rewrite app_nil_r. rewrite <- Hd. apply take_drop.
  - exfalso. rewrite <- (take_drop k s), Hd in Hl.
    rewrite last_app_cons, last_cons_cons in Hl.
    assert (is_Some (last (b :: x))) as [d Hd'] by by apply last_is_Some.
    rewrite Hd' in Hl. apply last_Some_elem_of in Hd'.
    rewrite Forall_forall in Hx. specialize (Hx _ Hd'). congruence.
Qed.

Lemma collapse_trim_last text :
  match last (replace reSpaces (fun _ => [SPACE]) (trim text)) with
  | Some c => isWhiteSpace c = false
  | None => True
  end.
Proof.
  assert (match last (trim text) with
          | Some c => isWhiteSpace c = false
          | None => True
          end) as Hl.
  { destruct (last (trim text)) as [c|] eqn:E; [|done]. by apply trim_last in E. }
  by rewrite collapse_last.
Qed.

(** The formatting, without the step that never acts. *)
Lemma formatVietnameseText_steps text language :
  formatVietnameseText text language =
  replace reInitial (fun m => toUpperCase (group 0 m))
    (replace reSpaces (fun _ => [SPACE]) (trim text)).
Proof.
  unfold formatVietnameseText. destruct text as [|b text]; [done|].
  rewrite (sentenceEnd_fix _ (collapse_trim_last (b :: text))).
  by destruct language.
Qed.

Lemma capital_not_space c :
  isWhiteSpace c = false ->
  isWhiteSpace (if isLowerAZ c then c - 32 else c) = false.
Proof.
  intros Hc. destruct (isLowerAZ c) eqn:E; [|done].
  unfold isLowerAZ in E. apply andb_true_iff in E as [H1%N.leb_le H2%N.leb_le].
  unfold isWhiteSpace.
  repeat match goal with
         | |- context [?a =? ?b] =>
           replace (a =? b) with false by (symmetry; apply N.eqb_neq; lia)
         end.
  replace (8192 <=? c - 32) with false by (symmetry; apply N.leb_gt; lia).
  done.
Qed.

Lemma capital_not_lower c :
  isLowerAZ (if isLowerAZ c then c - 32 else c) = false.
Proof.
  destruct (isLowerAZ c) eqn:E; [|done].
  unfold isLowerAZ in *. apply andb_true_iff in E as [H1%N.leb_le H2%N.leb_le].
  apply andb_false_iff. left. apply N.leb_gt. lia.
Qed.

(** What the formatting gives: nothing for a blank value, and otherwise a
    tidy text whose first character is no letter of [a-z]. *)
Lemma formatVietnameseText_result text language :
  formatVietnameseText text language = [] /\
    Forall (fun c => isWhiteSpace c = true) text \/
  exists c t,
    formatVietnameseText text language = c :: t /\
    isWhiteSpace c = false /\ isLowerAZ c = false /\
    singleSpaces (c :: t) = true /\
    match last (c :: t) with Some d => isWhiteSpace d = false | None => True end /\
    ~ Forall (fun c => isWhiteSpace c = true) text.
Proof.
  rewrite formatVietnameseText_steps.
  pose proof (collapse_singleSpaces (trim text)) as Hsingle.
  pose proof (collapse_trim_last text) as Hlast.
  destruct (trim text) as [|c t] eqn:Ht.
  - left. split; [done | by apply trim_nil].
  - right. pose proof (trim_head _ _ _ Ht) as Hc.
    assert (~ Forall (fun c => isWhiteSpace c = true) text) as Hnb
      by (intros Hb%trim_nil; congruence).
    rewrite (replace_reSpaces_head _ _ _ Hc) in *.
    rewrite replace_reInitial.
    eexists _, _. split; [done|].
    split; [by apply capital_not_space|].
    split; [apply capital_not_lower|].
    split; [|split; [|done]].
    + cbn [singleSpaces] in *. rewrite Hc in Hsingle.
      by rewrite (capital_not_space c Hc).
    + destruct (replace reSpaces (fun _ => [SPACE]) t) as [|d u].
      * by apply capital_not_space.
      * by rewrite last_cons_cons in *.
Qed.

(** ** Formatted values *)

(** X1.  The step [.replace(/([.!?])\s*$/, '$1')] of [formatVietnameseText]
    never changes the text it is given: the formatted value is the trimmed
    value with its white-space runs collapsed and an initial letter of
    [a-z] capitalised, so a terminal mark is neither added nor removed. *)
Theorem formatVietnameseText_sentence_end_idle text language :
  formatVietnameseText text language =
  replace reInitial (fun m => toUpperCase (group 0 m))
    (replace reSpaces (fun _ => [SPACE]) (trim text)).
Proof. apply formatVietnameseText_steps. Qed.

Lemma tidy_intro s :
  singleSpaces s = true ->
  match s with [] => True | c :: _ => isWhiteSpace c = false end ->
  match last s with Some c => isWhiteSpace c = false | None => True end ->
  tidy s.
Proof. intros Hs Hh Hl. split; [done | by apply trim_fix]. Qed.

(** X2.  A formatted value is tidy: it neither starts nor ends with white
    space, and its only white-space characters are single spaces (tabs,
    line breaks and runs are gone). *)
Theorem formatVietnameseText_tidy text language :
  tidy (formatVietnameseText text language).
Proof.
  destruct (formatVietnameseText_result text language)
    as [[-> _]|(c & t & -> & Hc & _ & Hs & Hl & _)].
  - by split.
  - by apply tidy_intro.
Qed.

(** X3.  Formatting is idempotent: formatting a formatted value again, in
    either language, gives it back. *)
Theorem formatVietnameseText_idempotent text language language' :
  formatVietnameseText (formatVietnameseText text language) language' =
  formatVietnameseText text language.
Proof.
  destruct (formatVietnameseText_result text language)
    as [[-> _]|(c & t & -> & Hc & Hlow & Hs & Hl & _)]; [done|].
  rewrite formatVietnameseText_steps.
  rewrite (trim_fix (c :: t)) by done.
  rewrite (collapse_fix (c :: t)) by done.
  by rewrite replace_reInitial, Hlow.
Qed.

(** X4.  The formatted value is empty exactly when the value is empty or
    made of white space only. *)
Theorem formatVietnameseText_empty_iff_blank text language :
  formatVietnameseText text language = [] <->
  Forall (fun c => isWhiteSpace c = true) text.
Proof.
  destruct (formatVietnameseText_result text language)
    as [[-> Hb]|(c & t & -> & _ & _ & _ & _ & Hnb)]; by split.
Qed.

(** ** Rendered content *)

(** X5.  The content [render] returns is trimmed, in both languages:
    trimming it again changes nothing. *)
Theorem render_content_trimmed (context : ConsultationContext) w :
  match (render context w).1 with
  | inr r => trim (content r) = content r
  | inl _ => True
  end.
Proof.
  destruct (templateAt (templates context) (consultationType context))
    as [[|c t]|] eqn:Ht.
  - by rewrite render_throws by auto.
  - rewrite (render_run _ _ _ Ht) by done.
    destruct (merged _ _ _) as [e|text]; [done|]. cbn [fst content].
    destruct (language context); apply trim_trim.
  - by rewrite render_throws by auto.
Qed.



(** In English mode a line break of the template stays. *)
Example mergeTemplate_english_line_break :
  (mergeTemplate (js "a" ++ NL ++ js "b") ∅ english (freshWorld (fun _ => 0))).1 =
  inr (js "a" ++ NL ++ js "b") /\
  (mergeTemplate (js "a" ++ NL ++ js "b") ∅ vietnamese (freshWorld (fun _ => 0))).1 =
  inr (js "a b").
Proof. vm_compute. split; reflexivity. Qed.

(** ** Templates without placeholders *)

Lemma search_none {C} (m : jsstring -> option (C * jsstring)) (P : N -> Prop) s :
  (forall c s, P c -> m (c :: s) = None) -> m [] = None ->
  Forall P s -> search m s = None.
Proof.
  intros Hno Hnil. induction 1 as [|c s Hc Hs IH]; simpl; [by rewrite Hnil|].
  by rewrite (Hno _ _ Hc), IH.
Qed.

Lemma scanLoop_noOpen p fuel li template acc :
  noOpen template ->
  scanLoop (source p) (S fuel) li template acc = (acc, O).
Proof.
  intros Hno. cbn [scanLoop]. unfold exec.
  destruct (length template <? li)%nat; [done|].
  rewrite (search_none _ (fun c => c <> LBRACE)); [done| | |by apply Forall_drop].
  - destruct p; [apply matchAt_double_not_open | apply matchAt_single_not_open].
  - by destruct p.
Qed.

Lemma replace_source_noOpen p (f : list jsstring -> Exception + jsstring) s :
  noOpen s -> replaceE (source p) f s = inr s.
Proof.
  intros Hno. unfold replaceE.
  replace (global (source p)) with true by by destruct p.
  rewrite <- (app_nil_r s) at 1.
  rewrite (replaceAllE_skip _ (source_shrinks p) _ (fun c => c <> LBRACE));
    [cbn; by rewrite app_nil_r| |done].
  destruct p; [apply matchAt_double_not_open | apply matchAt_single_not_open].
Qed.

(** X7.  A template without any [{] has no placeholder: whatever the data
    and whatever the state of the shared patterns, merging it only
    post-processes it, [extractPlaceholders] finds nothing, and
    [validateTemplate] gives no warning. *)
Theorem template_without_open_brace template data language availableFields w :
  noOpen template ->
  (mergeTemplate template data language w).1 =
    inr (postProcessVietnameseText template language) /\
  (extractPlaceholders template w).1 = [] /\
  Validation.warnings (validateTemplate template availableFields w).1 = [] /\
  Validation.placeholders (validateTemplate template availableFields w).1 = [].
Proof.
  intros Hno.
  assert ((extractPlaceholders template w).1 = []) as Hnone.
  { rewrite extractPlaceholders_run. cbn [fst].
    by rewrite !scanLoop_noOpen. }
  split.
  { rewrite mergeTemplate_run. cbn [fst]. unfold merged, firstScan.
    rewrite (replace_source_noOpen VIETNAMESE_PLACEHOLDER_PATTERN _ _ Hno).
    by rewrite (replace_source_noOpen PLACEHOLDER_PATTERN _ _ Hno). }
  split; [done|].
  unfold validateTemplate, bind.
  destruct (extractPlaceholders template w) as [seen w']. cbn [fst] in Hnone.
  by subst seen.
Qed.

Lemma template_without_open_brace_witness :
  (mergeTemplate (js "Xin chào } !") ∅ vietnamese (freshWorld (fun _ => 0))).1 =
    inr (postProcessVietnameseText (js "Xin chào } !") vietnamese) /\
  (extractPlaceholders (js "Xin chào } !") (freshWorld (fun _ => 0))).1 = [] /\
  Validation.warnings
    (validateTemplate (js "Xin chào } !") [] (freshWorld (fun _ => 0))).1 = [] /\
  Validation.placeholders
    (validateTemplate (js "Xin chào } !") [] (freshWorld (fun _ => 0))).1 = [].
Proof.
  apply template_without_open_brace.
  apply js_noOpen_decide. vm_compute. reflexivity.
Defined.

(** ** Validation and rendering together *)

(** X8.  A template that [validateTemplate] finds valid is one [render]
    finds: whatever the fields offered and the worlds of the two calls,
    [render] never throws "Template not found" for a context that selects
    it.  It returns a result made from that template, or throws the
    [TypeError] of a placeholder whose field is inherited. *)
Theorem valid_template_is_found (context : ConsultationContext) template
    availableFields w w' :
  templateAt (templates context) (consultationType context) = Some template ->
  Validation.isValid (validateTemplate template availableFields w').1 = true ->
  match (render context w).1 with
  | inr r => templateUsed r = template
  | inl e => e = TypeError notAFunction
  end.
Proof.
  intros Ht Hvalid.
  assert (template <> []) as Hne.
  { intros ->. revert Hvalid. unfold validateTemplate, bind.
    destruct (extractPlaceholders [] w') as [seen w'']. cbn.
    rewrite bool_decide_eq_true. by case_decide. }
  rewrite (render_run _ _ _ Ht Hne).
  destruct (merged _ _ _) as [e|text] eqn:E; [|done].
  by apply merged_exception in E.
Qed.

Lemma valid_template_is_found_witness :
  match (render (sampleContext (Some (js "Xin chào {ten}")) ∅ vietnamese)
           (freshWorld (fun _ => 0))).1 with
  | inr r => templateUsed r = js "Xin chào {ten}"
  | inl e => e = TypeError notAFunction
  end.
Proof.
  apply (valid_template_is_found _ _ [] _ (freshWorld (fun _ => 0))).
  - reflexivity.
  - vm_compute. reflexivity.
Defined.

(** Validity and rendering are otherwise independent: a template with
    unmatched braces renders, and a valid template can throw. *)
Example invalid_template_renders :
  Validation.isValid
    (validateTemplate (js "{{ten} ") [] (freshWorld (fun _ => 0))).1 = false /\
  exists r,
    (render (sampleContext (Some (js "{{ten} ")) ∅ english)
       (freshWorld (fun _ => 0))).1 = inr r /\
    content r = js "[Missing: {ten]".
Proof. split; [by vm_compute|]. eexists. by vm_compute. Qed.

Example valid_template_throws :
  Validation.isValid
    (validateTemplate (js "Xem {toString}") [] (freshWorld (fun _ => 0))).1 = true /\
  (render (sampleContext (Some (js "Xem {toString}")) ∅ english)
     (freshWorld (fun _ => 0))).1 = inl (TypeError notAFunction).
Proof. split; by vm_compute. Qed.

(** X9.  The renderer and the validator report the same placeholders:
    whenever [render] returns a result, the list in it is the list
    [validateTemplate] returns for the template of the context when the
    shared patterns are rewound. *)
Theorem render_and_validate_agree (context : ConsultationContext) template
    availableFields w w' :
  templateAt (templates context) (consultationType context) = Some template ->
  match (render context w).1 with
  | inr r =>
    placeholders r =
    Validation.placeholders
      (validateTemplate template availableFields (rewound w')).1
  | inl _ => True
  end.
Proof.
  intros Ht. destruct template as [|c t]; [by rewrite render_throws by auto|].
  rewrite (render_run _ _ _ Ht) by done.
  destruct (merged _ _ _) as [e|text]; [done|]. cbn [fst placeholders].
  unfold validateTemplate, bind. rewrite extractPlaceholders_run. done.
Qed.

Lemma render_and_validate_agree_witness :
  match (render (sampleContext (Some (js "Chào {{ten}}")) ∅ vietnamese)
           (freshWorld (fun _ => 0))).1 with
  | inr r =>
    placeholders r =
    Validation.placeholders
      (validateTemplate (js "Chào {{ten}}") []
         (rewound (freshWorld (fun _ => 0)))).1
  | inl _ => True
  end.
Proof. apply render_and_validate_agree. reflexivity. Defined.

(** ** The shared patterns *)

Lemma render_keeps_rewound (context : ConsultationContext) w :
  rewound w = w -> rewound (render context w).2 = (render context w).2.
Proof.
  intros Hw.
  destruct (templateAt (templates context) (consultationType context))
    as [[|c t]|] eqn:Ht.
  - by rewrite render_throws by auto.
  - rewrite (render_run _ _ _ Ht) by done.
    destruct (merged _ _ _) as [e|text]; [|done]. cbn [snd].
    destruct (firstScan _ _ _) as [e'|first]; [|done].
    destruct w as [vn ph clock reads]. injection Hw as Hv Hp. by subst vn ph.
  - by rewrite render_throws by auto.
Qed.

Lemma newDate_keeps_rewound w : rewound w = w -> rewound (newDate w).2 = (newDate w).2.
Proof.
  intros Hw. destruct w as [vn ph clock reads].
  injection Hw as Hv Hp. by subst vn ph.
Qed.

Lemma renderOne_keeps_rewound base type results w :
  rewound w = w ->
  rewound (renderOne base type results w).2 = (renderOne base type results w).2.
Proof.
  intros Hw. unfold renderOne, bind.
  pose proof (render_keeps_rewound
                {| baseContext := base; consultationType := type |} w Hw) as H.
  destruct (render _ w) as [[e|r] w1]; cbn [snd] in H; [|done].
  pose proof (newDate_keeps_rewound w1 H) as H'.
  by destruct (newDate w1) as [now w2].
Qed.

Lemma forEachType_keeps_rewound base types results w :
  rewound w = w ->
  rewound (forEachType base types results w).2 =
  (forEachType base types results w).2.
Proof.
  revert results w. induction types as [|type rest IH]; intros results w Hw;
    [done|].
  cbn [forEachType]. unfold bind.
  pose proof (renderOne_keeps_rewound base type results w Hw) as H.
  destruct (renderOne base type results w) as [results1 w1]. by apply IH.
Qed.

(** X10.  No operation leaves a scan position behind.  Started with both
    shared patterns rewound ([lastIndex] 0), each of [render],
    [generatePreview], [validateTemplate] and [renderAll] ends with both
    rewound, whether it returns or throws; [validateTemplate] and
    [extractPlaceholders] rewind them from any state. *)
Theorem operations_leave_patterns_rewound w :
  rewound w = w ->
  (forall context : ConsultationContext,
     rewound (render context w).2 = (render context w).2 /\
     rewound (generatePreview context w).2 = (generatePreview context w).2) /\
  (forall base types,
     rewound (renderAll base types w).2 = (renderAll base types w).2) /\
  (forall template availableFields w0,
     rewound (validateTemplate template availableFields w0).2 =
       (validateTemplate template availableFields w0).2 /\
     rewound (extractPlaceholders template w0).2 =
       (extractPlaceholders template w0).2).
Proof.
  intros Hw. split; [|split].
  - intros context. pose proof (render_keeps_rewound context w Hw) as H.
    split; [done|]. unfold generatePreview, bind.
    by destruct (render context w) as [[e|r] w1].
  - intros base types. by apply forEachType_keeps_rewound.
  - intros template availableFields w0.
    by rewrite validateTemplate_rewinds, extractPlaceholders_rewinds.
Qed.

Lemma operations_leave_patterns_rewound_witness :
  (forall context : ConsultationContext,
     rewound (render context (freshWorld (fun _ => 0))).2 =
       (render context (freshWorld (fun _ => 0))).2 /\
     rewound (generatePreview context (freshWorld (fun _ => 0))).2 =
       (generatePreview context (freshWorld (fun _ => 0))).2) /\
  (forall base types,
     rewound (renderAll base types (freshWorld (fun _ => 0))).2 =
       (renderAll base types (freshWorld (fun _ => 0))).2) /\
  (forall template availableFields w0,
     rewound (validateTemplate template availableFields w0).2 =
       (validateTemplate template availableFields w0).2 /\
     rewound (extractPlaceholders template w0).2 =
       (extractPlaceholders template w0).2).
Proof. apply operations_leave_patterns_rewound. reflexivity. Defined.

(** X11.  What [render] answers does not depend on the world it runs in,
    the render time apart: in any two worlds it throws the same error, or
    returns results with the same content, template, placeholders, product
    id, type and language.  A scan position left in a shared pattern could
    not change it. *)
Theorem render_same_in_every_world (context : ConsultationContext) w w' :
  match (render context w).1, (render context w').1 with
  | inr r, inr r' =>
    content r = content r' /\
    templateUsed r = templateUsed r' /\
    placeholders r = placeholders r' /\
    Metadata.productId (metadata r) = Metadata.productId (metadata r') /\
    Metadata.consultationType (metadata r) =
      Metadata.consultationType (metadata r') /\
    Metadata.language (metadata r) = Metadata.language (metadata r')
  | inl e, inl e' => e = e'
  | _, _ => False
  end.
Proof.
  destruct (templateAt (templates context) (consultationType context))
    as [[|c t]|] eqn:Ht.
  - by rewrite !render_throws by auto.
  - rewrite !(render_run _ _ _ Ht) by done.
    by destruct (merged _ _ _) as [e|text].
  - by rewrite !render_throws by auto.
Qed.

(** X12.  The placeholder list of a rendered result names no placeholder
    twice, however often the template uses it. *)
Theorem render_placeholders_NoDup (context : ConsultationContext) w :
  match (render context w).1 with
  | inr r => NoDup (placeholders r)
  | inl _ => True
  end.
Proof.
  destruct (templateAt (templates context) (consultationType context))
    as [[|c t]|] eqn:Ht.
  - by rewrite render_throws by auto.
  - rewrite (render_run _ _ _ Ht) by done.
    destruct (merged _ _ _) as [e|text]; [done|]. cbn [fst placeholders].
    apply scanLoop_NoDup, scanLoop_NoDup. constructor.
  - by rewrite render_throws by auto.
Qed.

(** ** The size of a batch *)

Lemma forEachType_dom base types results w :
  dom (forEachType base types results w).1 =
  dom results ∪ list_to_set (keyName <$> types).
Proof.
  revert results w. induction types as [|type rest IH]; intros results w.
  - cbn. by rewrite union_empty_r_L.
  - cbn [forEachType]. unfold bind.
    destruct (renderOne_run base type results w) as (entry & w1 & -> & _).
    rewrite IH, dom_insert_L, fmap_cons, list_to_set_cons.
    rewrite (union_comm_L {[keyName type]} (dom results)).
    by rewrite union_assoc_L.
Qed.

#[local] Instance keyName_Inj : Inj (=) (=) keyName.
Proof. intros a b. apply keyName_inj. Qed.

(** X13.  [renderAll] returns as many entries as there are distinct types
    in the list it is given: a type listed twice gets one entry, and no
    type is lost. *)
Theorem renderAll_size base types w :
  size (renderAll base types w).1 = length (remove_dups types).
Proof.
  unfold renderAll.
  rewrite <- size_dom, forEachType_dom, dom_empty_L, union_empty_l_L.
  assert (list_to_set (keyName <$> types) =@{gset (list N)}
          list_to_set (keyName <$> remove_dups types)) as ->.
  { apply set_eq. intros k. rewrite !elem_of_list_to_set, !list_elem_of_fmap.
    by setoid_rewrite elem_of_remove_dups. }
  rewrite size_list_to_set.
  - by rewrite length_fmap.
  - apply NoDup_fmap_2; [apply _ | apply NoDup_remove_dups].
Qed.

(** ** Statistics *)

Lemma increment_lookup key counts k :
  increment key counts !! k =
  if decide (key = k) then Some (default O (counts !! k) + 1)%nat
  else counts !! k.
Proof.
  unfold increment. case_decide as Hk.
  - subst. apply lookup_insert_eq.
  - by apply lookup_insert_ne.
Qed.

(** A map of counts after a run of increments. *)
Lemma increments_lookup {A} (key : A -> jsstring) (l : list A) counts k :
  fold_left (fun counts a => increment (key a) counts) l counts !! k =
  let n := length (filter (fun a => key a = k) l) in
  if decide (n = O) then counts !! k
  else Some (default O (counts !! k) + n)%nat.
Proof.
  revert counts. induction l as [|a l IH]; intros counts; [done|].
  cbn [fold_left]. rewrite IH, filter_cons, increment_lookup.
  destruct (decide (key a = k)) as [Ha|Ha]; [|done]. cbn [length default].
  destruct (decide (length (filter (fun a => key a = k) l) = O)) as [->|Hn].
  - cbn. f_equal.
  - cbn. f_equal. lia.
Qed.

Lemma tally_usage cs acc :
  tallyUsage (fold_left tallyOne cs acc) =
  fold_left
    (fun counts c =>
       increment (keyName (Metadata.consultationType (metadata c))) counts)
    cs (tallyUsage acc).
Proof. revert acc. induction cs as [|c cs IH]; intros acc; [done|]. apply IH. Qed.

Lemma tally_languages cs acc :
  tallyLanguages (fold_left tallyOne cs acc) =
  fold_left
    (fun counts c =>
       increment (languageName (Metadata.language (metadata c))) counts)
    cs (tallyLanguages acc).
Proof. revert acc. induction cs as [|c cs IH]; intros acc; [done|]. apply IH. Qed.

Lemma languageName_inj a b : languageName a = languageName b -> a = b.
Proof.
  destruct a, b; intros H; try reflexivity; vm_compute in H; discriminate H.
Qed.

Lemma filter_length_ext {A} (P Q : A -> Prop)
    `{!forall a, Decision (P a)} `{!forall a, Decision (Q a)} (l : list A) :
  (forall a, P a <-> Q a) -> length (filter P l) = length (filter Q l).
Proof.
  intros HPQ. induction l as [|a l IH]; [done|]. rewrite !filter_cons.
  destruct (decide (P a)) as [Hp|Hp], (decide (Q a)) as [Hq|Hq];
    simpl; rewrite ?IH; try done; by apply HPQ in Hp || apply HPQ in Hq.
Qed.

(** X14.  [generateStats] counts the results: [totalConsultations] is the
    length of the list, and [templateUsage] maps the key of every
    consultation type to the number of results of that type, holding no
    entry for a type without result and no other key. *)
Theorem generateStats_templateUsage roundedQuotient consultations :
  let stats := generateStats roundedQuotient consultations in
  Stats.totalConsultations stats = length consultations /\
  (forall type,
     Stats.templateUsage stats !! keyName type =
     let n := length (filter
                        (fun c => Metadata.consultationType (metadata c) = type)
                        consultations) in
     if decide (n = O) then None else Some n) /\
  (forall key, (forall type, key <> keyName type) ->
               Stats.templateUsage stats !! key = None).
Proof.
  cbn. split; [done|]. rewrite tally_usage. cbn [tallyUsage]. split.
  - intros type. rewrite increments_lookup. cbn.
    rewrite (filter_length_ext _
               (fun c => Metadata.consultationType (metadata c) = type)).
    + by case_decide.
    + intros c. split; [apply keyName_inj | by intros ->].
  - intros key Hkey. rewrite increments_lookup. cbn.
    rewrite (filter_length_ext _ (fun _ => False)).
    + induction consultations as [|c cs IH]; [done|].
      by rewrite filter_cons.
    + intros c. split; [|done]. intros Hc. by apply (Hkey _ (eq_sym Hc)).
Qed.

(** X15.  [languageDistribution] maps "vietnamese" and "english" to the
    numbers of results in each language, with no entry for a language
    without result; the two numbers add up to [totalConsultations]. *)
Theorem generateStats_languageDistribution roundedQuotient consultations :
  let stats := generateStats roundedQuotient consultations in
  let count language :=
    length (filter (fun c => Metadata.language (metadata c) = language)
                   consultations) in
  (forall language,
     Stats.languageDistribution stats !! languageName language =
     if decide (count language = O) then None else Some (count language)) /\
  (count vietnamese + count english)%nat = Stats.totalConsultations stats.
Proof.
  cbn. rewrite tally_languages. cbn [tallyLanguages]. split.
  - intros language. rewrite increments_lookup. cbn.
    rewrite (filter_length_ext _
               (fun c => Metadata.language (metadata c) = language)).
    + by case_decide.
    + intros c. split; [apply languageName_inj | by intros ->].
  - induction consultations as [|c cs IH]; [done|].
    rewrite !filter_cons. cbn [length]. rewrite <- IH.
    destruct (Metadata.language (metadata c));
      repeat case_decide; try done; simpl; lia.
Qed.

(** The latest time after a run of the loop. *)
Lemma tally_last cs acc :
  match tallyLast (fold_left tallyOne cs acc) with
  | None => tallyLast acc = None /\ cs = []
  | Some t =>
    (tallyLast acc = Some t \/
     exists c, c ∈ cs /\ Metadata.renderTime (metadata c) = t) /\
    (forall t0, tallyLast acc = Some t0 -> t0 <= t) /\
    (forall c, c ∈ cs -> Metadata.renderTime (metadata c) <= t)
  end.
Proof.
  revert acc. induction cs as [|c cs IH]; intros acc.
  - cbn. destruct (tallyLast acc) as [t|]; [|done].
    split; [by left|]. split; [by intros t0 [= ->]|].
    by intros c ?%elem_of_nil.
  - cbn [fold_left]. specialize (IH (tallyOne acc c)).
    destruct (tallyLast (fold_left tallyOne cs (tallyOne acc c))) as [t|].
    + destruct IH as (Hfrom & Hacc & Hcs). cbn [tallyOne tallyLast] in Hfrom, Hacc.
      destruct (tallyLast acc) as [t1|] eqn:E.
      * destruct (t1 <? Metadata.renderTime (metadata c)) eqn:Hlt.
        -- apply N.ltb_lt in Hlt. specialize (Hacc _ eq_refl).
           split; [|split].
           ++ right. destruct Hfrom as [[= <-]|(c' & Hin & Ht)].
              ** exists c. split; [by left | done].
              ** exists c'. split; [by right | done].
           ++ intros t0 [= <-]. lia.
           ++ intros c' [->|Hin]%elem_of_cons; [done | by apply Hcs].
        -- apply N.ltb_ge in Hlt. specialize (Hacc _ eq_refl).
           split; [|split].
           ++ destruct Hfrom as [[= <-]|(c' & Hin & Ht)]; [by left|].
              right. exists c'. split; [by right | done].
           ++ by intros t0 [= <-].
           ++ intros c' [->|Hin]%elem_of_cons; [lia | by apply Hcs].
      * specialize (Hacc _ eq_refl). split; [|split].
        -- right. destruct Hfrom as [[= <-]|(c' & Hin & Ht)].
           ++ exists c. split; [by left | done].
           ++ exists c'. split; [by right | done].
        -- done.
        -- intros c' [->|Hin]%elem_of_cons; [done | by apply Hcs].
    + destruct IH as [Hnone _]. cbn [tallyOne tallyLast] in Hnone.
      destruct (tallyLast acc) as [t1|]; [|done].
      by destruct (t1 <? Metadata.renderTime (metadata c)).
Qed.

(** X16.  [lastRenderTime] is [null] exactly for the empty list, where the
    average length is 0 whatever the rounding; otherwise it is the render
    time of one of the results and no result has a later one. *)
Theorem generateStats_lastRenderTime roundedQuotient consultations :
  let stats := generateStats roundedQuotient consultations in
  (Stats.lastRenderTime stats = None <-> consultations = []) /\
  (consultations = [] -> Stats.averageContentLength stats = O) /\
  (forall t, Stats.lastRenderTime stats = Some t ->
     (exists c, c ∈ consultations /\ Metadata.renderTime (metadata c) = t) /\
     (forall c, c ∈ consultations -> Metadata.renderTime (metadata c) <= t)).
Proof.
  cbn.
  pose proof (tally_last consultations
                {| tallyUsage := ∅; tallyLanguages := ∅;
                   totalContentLength := O; tallyLast := None |}) as H.
  destruct (tallyLast (fold_left tallyOne consultations _)) as [t|].
  - destruct H as ([Hno|Hin] & _ & Hmax); [done|].
    split; [split; [done|]|split].
    + intros ->. destruct Hin as (c & ?%elem_of_nil & _). done.
    + by intros ->.
    + by intros t0 [= <-].
  - destruct H as [_ ->]. split; [done|]. split; [done|]. by intros t.
Qed.

(** ** Search *)

(** X17.  A query of white space only, the empty one included, makes
    [searchConsultationContent] return the list it was given, without
    asking [vietnameseMatch]. *)
Theorem searchConsultationContent_blank_query vietnameseMatch consultations query :
  Forall (fun c => isWhiteSpace c = true) query ->
  searchConsultationContent vietnameseMatch consultations query = consultations.
Proof.
  intros Hblank. unfold searchConsultationContent.
  by rewrite (proj2 (trim_nil query) Hblank).
Qed.

Lemma searchConsultationContent_blank_query_witness :
  let result :=
    {| content := js "abc"; templateUsed := js "abc"; placeholders := [];
       metadata := {| Metadata.productId := js "p1";
                      Metadata.consultationType := Safety;
                      Metadata.renderTime := 0;
                      Metadata.language := english |} |} in
  searchConsultationContent (fun _ _ => false) [result] [SPACE; 9; 10] = [result].
Proof.
  intros result. apply searchConsultationContent_blank_query.
  repeat constructor.
Defined.

(** X19.  Searching is a filter for every query: searching the results
    again with the same query changes nothing, and the results of two
    lists put end to end are the results of each, put end to end. *)
Theorem searchConsultationContent_filter vietnameseMatch query l1 l2 :
  searchConsultationContent vietnameseMatch
    (searchConsultationContent vietnameseMatch l1 query) query =
  searchConsultationContent vietnameseMatch l1 query /\
  searchConsultationContent vietnameseMatch (l1 ++ l2) query =
  searchConsultationContent vietnameseMatch l1 query ++
  searchConsultationContent vietnameseMatch l2 query.
Proof.
  unfold searchConsultationContent. destruct (trim query); [done|]. split.
  - rewrite list_filter_filter. apply list_filter_iff. tauto.
  - apply filter_app.
Qed.

(** ** Display names of fields *)

Lemma matchAt_reUnderscore c s :
  matchAt reUnderscore (c :: s) = if c =? 95 then Some ([[c]], s) else None.
Proof.
  unfold matchAt, reUnderscore. cbn [nodes].
  rewrite (matchNodes_one _ (chr 95)) by done. unfold chr.
  by destruct (c =? 95).
Qed.

Lemma reUnderscore_shrinks s m rem :
  matchAt reUnderscore s = Some (m, rem) -> (length rem < length s)%nat.
Proof. apply matchAt_shrinks. done. Qed.

(** [.replace(/_/g, ' ')] changes the underscores, one by one. *)
Lemma replace_reUnderscore s :
  replace reUnderscore (fun _ => [SPACE]) s =
  map (fun c => if c =? 95 then SPACE else c) s.
Proof.
  unfold replace. cbn [global reUnderscore].
  induction s as [|c s IH]; [done|].
  rewrite (replaceAll_cons _ reUnderscore_shrinks), matchAt_reUnderscore.
  fold reUnderscore in IH. cbn [map]. destruct (c =? 95); by rewrite IH.
Qed.

Lemma capitalizeWordStarts_lookup s : forall afterWord i,
  capitalizeWordStarts afterWord s !! i =
  (fun c =>
     if isLowerAZ c &&
        negb match i with
             | O => afterWord
             | S j => default false (isWordChar <$> s !! j)
             end
     then c - 32 else c) <$> s !! i.
Proof.
  induction s as [|c s IH]; intros afterWord i; [done|].
  cbn [capitalizeWordStarts toUpperCase map].
  destruct i as [|i].
  - cbn. f_equal. unfold isWordChar.
    destruct (isLowerAZ c), afterWord; try done; cbn;
      by destruct (_ || _).
  - replace ((if isWordChar c && negb afterWord
              then [if isLowerAZ c then c - 32 else c] else [c])
             ++ capitalizeWordStarts (isWordChar c) s)
      with ((if isWordChar c && negb afterWord
             then (if isLowerAZ c then c - 32 else c) else c)
            :: capitalizeWordStarts (isWordChar c) s)
      by by destruct (_ && _).
    cbn [lookup list_lookup]. rewrite IH. by destruct i.
Qed.

Lemma capitalizeWordStarts_length s : forall afterWord,
  length (capitalizeWordStarts afterWord s) = length s.
Proof.
  induction s as [|c s IH]; intros afterWord; [done|].
  cbn [capitalizeWordStarts toUpperCase map]. rewrite length_app, IH.
  by destruct (_ && _).
Qed.

Lemma capital_isWordChar c : isWordChar (c - 32) = true \/ isLowerAZ c = false.
Proof.
  unfold isWordChar, isLowerAZ.
  destruct (97 <=? c) eqn:H1, (c <=? 122) eqn:H2; cbn; auto.
  left. apply N.leb_le in H1, H2.
  assert ((65 <=? c - 32) = true) as -> by (apply N.leb_le; lia).
  assert ((c - 32 <=? 90) = true) as -> by (apply N.leb_le; lia).
  cbn. by rewrite orb_true_r.
Qed.

Lemma capital_not_lowerAZ c : isLowerAZ c = true -> isLowerAZ (c - 32) = false.
Proof.
  unfold isLowerAZ. intros [H1 H2]%andb_true_iff.
  apply N.leb_le in H1, H2. apply andb_false_iff. left. apply N.leb_gt. lia.
Qed.

(** A second pass finds every start of a word already in capitals. *)
Lemma capitalizeWordStarts_twice s : forall afterWord,
  capitalizeWordStarts afterWord (capitalizeWordStarts afterWord s) =
  capitalizeWordStarts afterWord s.
Proof.
  induction s as [|c s IH]; intros afterWord; [done|].
  cbn [capitalizeWordStarts toUpperCase map].
  destruct (isWordChar c && negb afterWord) eqn:Hc.
  - apply andb_true_iff in Hc as [Hw Ha].
    destruct (isLowerAZ c) eqn:Hl.
    + cbn [app capitalizeWordStarts toUpperCase map].
      destruct (capital_isWordChar c) as [Hu|Hu]; [|congruence].
      rewrite Hu, Ha, (capital_not_lowerAZ _ Hl). cbn [andb app].
      rewrite <- Hw at 1. by rewrite IH, Hw.
    + cbn [app capitalizeWordStarts toUpperCase map].
      rewrite Hw, Ha, Hl. cbn [andb app]. by rewrite IH.
  - cbn [app capitalizeWordStarts]. rewrite Hc. cbn [app]. by rewrite IH.
Qed.

Lemma capitalizeWordStarts_no_underscore s : forall afterWord,
  Forall (fun c => c <> 95) s ->
  Forall (fun c => c <> 95) (capitalizeWordStarts afterWord s).
Proof.
  induction s as [|c s IH]; intros afterWord Hs; [done|].
  apply Forall_cons in Hs as [Hc Hs].
  cbn [capitalizeWordStarts toUpperCase map]. apply Forall_app. split.
  - destruct (_ && _); [|by repeat constructor].
    destruct (isLowerAZ c) eqn:Hl; [|by repeat constructor].
    repeat constructor. unfold isLowerAZ in Hl.
    apply andb_true_iff in Hl as [H1 H2]. apply N.leb_le in H1, H2. lia.
  - by apply IH.
Qed.

Lemma underscores_replaced s :
  Forall (fun c => c <> 95) (map (fun c => if c =? 95 then SPACE else c) s).
Proof.
  apply Forall_map, Forall_forall. intros c _. cbn.
  destruct (c =? 95) eqn:Hc; [done|]. by apply N.eqb_neq.
Qed.

Lemma underscores_none s :
  Forall (fun c => c <> 95) s ->
  map (fun c => if c =? 95 then SPACE else c) s = s.
Proof.
  induction 1 as [|c s Hc Hs IH]; [done|]. cbn [map].
  apply N.eqb_neq in Hc. by rewrite Hc, IH.
Qed.

(** X20.  [formatFieldName] works character by character: an underscore
    becomes a space; a letter a-z becomes its capital when it starts the
    name or follows a character that is not a letter A-Z or a-z or a
    digit, an accented letter for one; every other character is kept. *)
Theorem formatFieldName_char fieldName i :
  formatFieldName fieldName !! i =
  (fun c =>
     if c =? 95 then SPACE
     else if isLowerAZ c &&
             negb match i with
                  | O => false
                  | S j =>
                    match fieldName !! j with
                    | Some d => isWordChar d && negb (d =? 95)
                    | None => false
                    end
                  end
          then c - 32
          else c) <$> fieldName !! i.
Proof.
  unfold formatFieldName.
  rewrite replace_reUnderscore, capitalizeWordStarts_lookup, !list_lookup_fmap.
  destruct (fieldName !! i) as [c|] eqn:Hi; [|done]. cbn. f_equal.
  destruct (c =? 95) eqn:Hc.
  - by vm_compute.
  - destruct i as [|j]; [done|].
    rewrite list_lookup_fmap. destruct (fieldName !! j) as [d|]; [|done]. cbn.
    destruct (d =? 95) eqn:Hd.
    + replace (isWordChar SPACE) with false by by vm_compute.
      by rewrite andb_false_r.
    + by rewrite andb_true_r.
Qed.

(** "cách_thoa", a field of the sample data, is displayed with a capital
    after its accented letter. *)
Example formatFieldName_accented :
  formatFieldName (js "cách_thoa") = js "CáCh Thoa".
Proof. by vm_compute. Qed.

(** X21.  A display name is as long as the field name, has no underscore,
    and is its own display name. *)
Theorem formatFieldName_idempotent fieldName :
  length (formatFieldName fieldName) = length fieldName /\
  Forall (fun c => c <> 95) (formatFieldName fieldName) /\
  formatFieldName (formatFieldName fieldName) = formatFieldName fieldName.
Proof.
  unfold formatFieldName. rewrite !replace_reUnderscore.
  pose proof (capitalizeWordStarts_no_underscore _ false
                (underscores_replaced fieldName)) as Hno.
  split; [|split].
  - by rewrite capitalizeWordStarts_length, length_map.
  - done.
  - rewrite (underscores_none _ Hno). apply capitalizeWordStarts_twice.
Qed.

(** ** Post-processing *)

Lemma punct_not_white p : isPunct p = true -> isWhiteSpace p = false.
Proof.
  unfold isPunct, isTerminal. rewrite !orb_true_iff, !N.eqb_eq.
  intros [->|[[->| ->]| ->]]; by vm_compute.
Qed.

Lemma punct_not_upper p : isPunct p = true -> isUpper p = false.
Proof.
  unfold isPunct, isTerminal. rewrite !orb_true_iff, !N.eqb_eq.
  intros [->|[[->| ->]| ->]]; by vm_compute.
Qed.

Lemma upper_not_punct b : isUpper b = true -> isPunct b = false.
Proof.
  intros Hb. destruct (isPunct b) eqn:Hp; [|done].
  apply punct_not_upper in Hp. congruence.
Qed.

Lemma upper_not_terminal b : isUpper b = true -> isTerminal b = false.
Proof.
  intros Hb%upper_not_punct. unfold isPunct in Hb.
  by apply orb_false_iff in Hb as [_ ?].
Qed.

Lemma adjacent_app_inv P Q x y :
  adjacent P Q (x ++ y) = false ->
  adjacent P Q x = false /\ adjacent P Q y = false.
Proof.
  induction x as [|a x IH]; [done|]. cbn [app adjacent].
  intros [Ha Hxy]%orb_false_iff. destruct (IH Hxy) as [Hx Hy].
  split; [|done]. rewrite Hx, orb_false_r.
  destruct x as [|b x]; [by rewrite andb_false_r | done].
Qed.

(** The last character of a prefix and the character after it. *)
Lemma adjacent_last P Q x b d r :
  adjacent P Q (x ++ d :: r) = false -> last x = Some b ->
  P b && Q d = false.
Proof.
  induction x as [|a x IH]; [done|]. cbn [app adjacent].
  intros [Ha Hx]%orb_false_iff. destruct x as [|a' x].
  - by intros [= <-].
  - rewrite last_cons_cons. by apply IH.
Qed.

(** *** White space before a mark *)

Lemma matchAt_reSpacePunct_hit c x p r :
  isWhiteSpace c = true -> Forall (fun c => isWhiteSpace c = true) x ->
  isPunct p = true ->
  matchAt reSpacePunct (c :: x ++ p :: r) = Some ([c :: x ++ [p]; [p]], r).
Proof.
  intros Hc Hx Hp. unfold matchAt. cbn [nodes reSpacePunct].
  rewrite (matchNodes_plus _ isWhiteSpace _ c x (p :: r) [p] [[p]] r);
    try done.
  - by apply punct_not_white.
  - rewrite (matchNodes_one _ isPunct) by done. by rewrite Hp.
Qed.

Lemma matchAt_reSpacePunct_spec s m rem :
  matchAt reSpacePunct s = Some (m, rem) ->
  exists c x p, s = c :: x ++ p :: rem /\ isWhiteSpace c = true /\
                Forall (fun c => isWhiteSpace c = true) x /\
                isPunct p = true /\ group 1 m = [p].
Proof.
  unfold matchAt. cbn [nodes reSpacePunct].
  destruct (matchNodes _ s) as [[[matched groups] rest]|] eqn:E; [|done].
  intros [= <- <-].
  apply matchNodes_cons in E as (x1 & r1 & m1 & g1 & Hin1 & E & -> & ->).
  apply matchNodes_cons in E as (x2 & r2 & m2 & g2 & Hin2 & E & -> & ->).
  injection E as <- <- <-.
  cbn [atomOf alternatives] in Hin1, Hin2.
  destruct s as [|c s]; [by apply elem_of_nil in Hin1|].
  destruct (isWhiteSpace c) eqn:Hc; [|by apply elem_of_nil in Hin1].
  apply list_elem_of_fmap in Hin1 as ([x r] & [= -> ->] & Hin1).
  destruct r as [|p r]; [by apply elem_of_nil in Hin2|].
  destruct (isPunct p) eqn:Hp; [|by apply elem_of_nil in Hin2].
  apply list_elem_of_singleton in Hin2 as [= -> ->].
  pose proof (runs_all _ _ _ _ Hin1) as Hx.
  apply runs_split in Hin1 as ->.
  by exists c, x, p.
Qed.

(** After [.replace(/\s+([,.!?])/g, '$1')] no mark follows white space. *)
Lemma spacePunct_removed s :
  adjacent isWhiteSpace isPunct
    (replace reSpacePunct (fun m => group 1 m) s) = false.
Proof.
  unfold replace. cbn [global reSpacePunct]. fold reSpacePunct.
  remember (length s) as n eqn:Hn. revert s Hn.
  induction n as [n IH] using lt_wf_ind. intros s ->.
  destruct s as [|c rest]; [done|].
  rewrite (replaceAll_cons _ reSpacePunct_shrinks).
  destruct (matchAt reSpacePunct (c :: rest)) as [[m rem]|] eqn:E.
  - pose proof (reSpacePunct_shrinks _ _ _ E) as Hlt.
    apply matchAt_reSpacePunct_spec in E as (_ & _ & p & _ & _ & _ & Hp & ->).
    cbn [app adjacent]. rewrite (punct_not_white _ Hp). cbn [andb orb].
    by apply (IH (length rem)).
  - cbn [adjacent]. rewrite (IH (length rest)); [|simpl; lia|done].
    rewrite orb_false_r. destruct (isWhiteSpace c) eqn:Hc; [|done].
    cbn [andb]. destruct rest as [|d rest]; [done|].
    rewrite (replaceAll_cons _ reSpacePunct_shrinks).
    destruct (matchAt reSpacePunct (d :: rest)) as [[m rem]|] eqn:E'.
    + apply matchAt_reSpacePunct_spec in E'
        as (d' & x & p & [= <- ->] & Hd & Hx & Hp & _).
      assert (Forall (fun c => isWhiteSpace c = true) (d :: x)) as Hdx
        by by constructor.
      pose proof (matchAt_reSpacePunct_hit c (d :: x) p rem Hc Hdx Hp) as Hhit.
      cbn [app] in Hhit. congruence.
    + destruct (isPunct d) eqn:Hd; [|done].
      pose proof (matchAt_reSpacePunct_hit c [] d rest Hc (Forall_nil_2 _) Hd)
        as Hhit.
      cbn [app] in Hhit. congruence.
Qed.

(** *** A capital after a mark *)

Lemma reSentenceStart_cons a s :
  replace reSentenceStart (fun m => group 1 m ++ [SPACE] ++ group 2 m) (a :: s) =
  match s with
  | b :: s' =>
    if isTerminal a && isUpper b
    then a :: SPACE :: b ::
         replace reSentenceStart (fun m => group 1 m ++ [SPACE] ++ group 2 m) s'
    else a ::
         replace reSentenceStart (fun m => group 1 m ++ [SPACE] ++ group 2 m) s
  | [] => [a]
  end.
Proof.
  unfold replace. cbn [global reSentenceStart]. fold reSentenceStart.
  rewrite (replaceAll_cons _ reSentenceStart_shrinks).
  unfold matchAt at 1. cbn [nodes reSentenceStart].
  rewrite (matchNodes_one _ isTerminal) by done.
  destruct s as [|b s'].
  - by destruct (isTerminal a).
  - rewrite (matchNodes_one _ isUpper) by done. cbn [matchNodes].
    by destruct (isTerminal a), (isUpper b).
Qed.

Lemma reSentenceStart_head s :
  head (replace reSentenceStart
          (fun m => group 1 m ++ [SPACE] ++ group 2 m) s) = head s.
Proof.
  destruct s as [|a s]; [done|]. rewrite reSentenceStart_cons.
  destruct s as [|b s]; [done|]. by destruct (_ && _).
Qed.

Lemma adjacent_cons P Q a s :
  adjacent P Q (a :: s) =
  (P a && match head s with Some b => Q b | None => false end)
  || adjacent P Q s.
Proof. by destruct s. Qed.

(** The spaces that [.replace(/([.!?])([A-Z...])/g, '$1 $2')] puts in come
    before a capital: they make no pair with a class that has neither the
    space nor a capital on the right. *)
Lemma sentenceStart_keeps P Q s :
  Q SPACE = false -> (forall b, isUpper b = true -> Q b = false) ->
  adjacent P Q s = false ->
  adjacent P Q
    (replace reSentenceStart
       (fun m => group 1 m ++ [SPACE] ++ group 2 m) s) = false.
Proof.
  intros Hspace Hupper.
  remember (length s) as n eqn:Hn. revert s Hn.
  induction n as [n IH] using lt_wf_ind. intros s -> Hs.
  destruct s as [|a s]; [done|]. rewrite reSentenceStart_cons.
  destruct s as [|b s]; [by rewrite adjacent_cons, andb_false_r|].
  rewrite (adjacent_cons _ _ a) in Hs. apply orb_false_iff in Hs as [Hab Hs].
  destruct (isTerminal a && isUpper b) eqn:E.
  - apply andb_true_iff in E as [_ Hb].
    rewrite (adjacent_cons _ _ b) in Hs. apply orb_false_iff in Hs as [Hb' Hs].
    rewrite !adjacent_cons, reSentenceStart_head. cbn [head].
    rewrite Hspace, (Hupper _ Hb), !andb_false_r, Hb'. cbn [orb].
    by apply (IH (length s)); [simpl; lia| |].
  - rewrite adjacent_cons, reSentenceStart_head, Hab. cbn [orb].
    by apply (IH (length (b :: s))); [simpl; lia| |].
Qed.

(** After it no capital follows a mark. *)
Lemma sentenceStart_separated s :
  adjacent isTerminal isUpper
    (replace reSentenceStart
       (fun m => group 1 m ++ [SPACE] ++ group 2 m) s) = false.
Proof.
  remember (length s) as n eqn:Hn. revert s Hn.
  induction n as [n IH] using lt_wf_ind. intros s ->.
  destruct s as [|a s]; [done|]. rewrite reSentenceStart_cons.
  destruct s as [|b s]; [by rewrite adjacent_cons, andb_false_r|].
  destruct (isTerminal a && isUpper b) eqn:E.
  - apply andb_true_iff in E as [_ Hb].
    rewrite !adjacent_cons. cbn [head].
    replace (isUpper SPACE) with false by by vm_compute.
    replace (isTerminal SPACE) with false by by vm_compute.
    rewrite (upper_not_terminal _ Hb), andb_false_r. cbn [andb orb].
    by apply (IH (length s)); [simpl; lia|].
  - rewrite adjacent_cons, reSentenceStart_head. cbn [head]. rewrite E.
    cbn [orb]. by apply (IH (length (b :: s))); [simpl; lia|].
Qed.

(** *** The collapse of white space *)

Lemma collapse_keeps P Q s :
  Q SPACE = false ->
  (P SPACE = true -> forall c, isWhiteSpace c = true -> P c = true) ->
  adjacent P Q s = false ->
  adjacent P Q (replace reSpaces (fun _ => [SPACE]) s) = false.
Proof.
  intros Hspace Hwhite.
  remember (length s) as n eqn:Hn. revert s Hn.
  induction n as [n IH] using lt_wf_ind. intros s -> Hs.
  destruct s as [|c s]; [done|].
  destruct (isWhiteSpace c) eqn:Hc.
  - destruct (replace_reSpaces_run (fun _ => [SPACE]) c s Hc)
      as (x & r & -> & Hx & Hr & ->).
    cbn [app]. rewrite adjacent_cons.
    destruct (adjacent_app_inv P Q (c :: x) r Hs) as [_ Hrest].
    rewrite (IH (length r)); [|simpl; rewrite length_app; lia|done|done].
    rewrite orb_false_r. destruct r as [|d r]; [by rewrite andb_false_r|].
    rewrite (replace_reSpaces_head _ _ _ Hr). cbn [head].
    destruct (P SPACE) eqn:HP; [|done]. cbn [andb].
    assert (is_Some (last (c :: x))) as [b Hb] by by apply last_is_Some.
    pose proof (adjacent_last P Q (c :: x) b d r Hs Hb) as Hpair.
    assert (b ∈ c :: x) as Hin by by apply last_Some_elem_of.
    assert (Forall (fun c => isWhiteSpace c = true) (c :: x)) as Hall
      by by constructor.
    rewrite Forall_forall in Hall.
    by rewrite (Hwhite eq_refl _ (Hall _ Hin)) in Hpair.
  - rewrite (replace_reSpaces_head _ _ _ Hc), adjacent_cons.
    rewrite (adjacent_cons _ _ c) in Hs. apply orb_false_iff in Hs as [Hcd Hs].
    rewrite (IH (length s)); [|simpl; lia|done|done].
    rewrite orb_false_r. destruct s as [|d s]; [by rewrite andb_false_r|].
    destruct (isWhiteSpace d) eqn:Hd.
    + destruct (replace_reSpaces_run (fun _ => [SPACE]) d s Hd)
        as (x & r & _ & _ & _ & ->).
      cbn [app head]. by rewrite Hspace, andb_false_r.
    + by rewrite (replace_reSpaces_head _ _ _ Hd).
Qed.

Lemma trim_keeps P Q s : adjacent P Q s = false -> adjacent P Q (trim s) = false.
Proof.
  destruct (trim_infix s) as (pre & post & Hs). rewrite Hs at 1.
  intros [_ H]%adjacent_app_inv. by apply adjacent_app_inv in H as [? _].
Qed.

(** X22.  What the Vietnamese post-processing is for, it achieves: in the
    text [mergeTemplate] returns in Vietnamese mode no white space comes
    immediately before one of [, . ! ?], and none of [. ! ?] is immediately
    followed by a capital of the Vietnamese alphabet. *)
Theorem mergeTemplate_vietnamese_punctuation template data w :
  match (mergeTemplate template data vietnamese w).1 with
  | inr content =>
    adjacent isWhiteSpace isPunct content = false /\
    adjacent isTerminal isUpper content = false
  | inl _ => True
  end.
Proof.
  rewrite mergeTemplate_run. cbn [fst].
  destruct (merged template data vietnamese) as [e|text]; [done|].
  cbn [postProcessVietnameseText]. split.
  - apply trim_keeps, collapse_keeps; [by vm_compute | done |].
    apply sentenceStart_keeps; [by vm_compute | apply upper_not_punct |].
    apply spacePunct_removed.
  - apply trim_keeps, collapse_keeps; [by vm_compute | by vm_compute |].
    apply sentenceStart_separated.
Qed.

(** ** The default templates and the sample data *)

(** X23.  With the templates of [getDefaultTemplates] and the data of
    [createSampleData], whatever the product, the language and the other
    fields of the context: [render] throws for the six types that have no
    default template; for the six others it returns a content in which the
    product name is missing, [{productName}] being looked up in the
    consultation data and not in the context; and only the usage guide and
    the care template have all their double-brace fields in the sample
    data. *)
Theorem default_templates_with_sample_data (base : BaseContext) type w :
  templates base = getDefaultTemplates ->
  consultationData base = createSampleData ->
  let result :=
    (render {| baseContext := base; consultationType := type |} w).1 in
  match templateAt getDefaultTemplates type with
  | None => result = inl (Error (notFound type))
  | Some _ =>
    exists r,
      result = inr r /\
      includes (content r) (js "[Missing: productName]") = true /\
      (includes (content r) (js "[Chưa có thông tin: ") = false <->
       type = UsageGuide \/ type = Care)
  end.
Proof.
  intros Ht Hd result. subst result.
  destruct (templateAt getDefaultTemplates type) as [template|] eqn:E.
  - rewrite (render_run _ w template).
    2:{ cbn [templates baseContext consultationType]. by rewrite Ht. }
    2:{ intros ->. by destruct type; vm_compute in E. }
    cbn [consultationData baseContext language]. rewrite Hd.
    destruct type; vm_compute in E; try discriminate E;
      injection E as <-; destruct (language base);
      match goal with
      | |- context [merged ?t ?d ?l] =>
        let v := eval vm_compute in (merged t d l) in
        replace (merged t d l) with v by (vm_compute; reflexivity)
      end;
      (eexists; split; [done|]); cbn [fst content];
      (split; [by vm_compute|]);
      (split; [try by vm_compute | try by (intros [H|H]; discriminate H)]);
      auto.
  - rewrite render_throws; [done|]. left.
    cbn [templates baseContext consultationType]. by rewrite Ht.
Qed.

Lemma default_templates_with_sample_data_witness :
  let base :=
    {| productId := js "p1"; productName := js "Kem";
       categoryName := None; industryName := None; customerName := None;
       customerContext := None; consultationData := createSampleData;
       templates := getDefaultTemplates; language := vietnamese |} in
  exists r,
    (render {| baseContext := base; consultationType := Storage |}
       (freshWorld (fun _ => 0))).1 = inr r /\
    includes (content r) (js "[Missing: productName]") = true /\
    (includes (content r) (js "[Chưa có thông tin: ") = false <->
     Storage = UsageGuide \/ Storage = Care).
Proof.
  intros base.
  exact (default_templates_with_sample_data base Storage
           (freshWorld (fun _ => 0)) eq_refl eq_refl).
Defined.
